(** * Packing coloring by integer linear programming

    A shallow embedding of [solve_packing_coloring]
    (packing_coloring_optimizer.py) and the properties of the model it
    builds and of the coloring it decodes.

    The function has two external collaborators, which the embedding takes
    as arguments:
    - [all_pairs_shortest_path_length] (NetworkX), whose result the code
      turns into the dict of dicts [distances];
    - the MILP backend behind [model.solve], which yields a status and,
      through PuLP, a value for each variable name ([varValue]).

    Python exceptions are explicit: a missing dict key raises [KeyError],
    comparing [None] with a float raises [TypeError], and adding a
    constraint under a name the problem already has raises PuLP's
    [PulpError].  Solved values are rationals: the code only compares them
    with 0.5. *)

From Stdlib Require Import QArith Lqa.
From stdpp Require Import gmap strings list fin_maps pretty.

Local Open Scope string_scope.
Local Open Scope list_scope.

(** ** Exceptions *)

Inductive exn := KeyError | TypeError | PulpError.

Inductive result (A : Type) :=
  | Ok (a : A)
  | Raise (e : exn).
Arguments Ok {A} a.
Arguments Raise {A} e.

#[global] Instance result_ret : MRet result := λ A a, Ok a.
#[global] Instance result_bind : MBind result := λ A B f r,
  match r with
  | Ok a => f a
  | Raise e => Raise e
  end.

(** [for a in l: s = body a s], stopping at the first exception. *)
Fixpoint for_ {A S : Type} (l : list A) (body : A → S → result S) (s : S)
  : result S :=
  match l with
  | [] => Ok s
  | a :: l' => s' ← body a s; for_ l' body s'
  end.

(** [[f(a) for a in l]] for a fallible [f]. *)
Fixpoint comprehension {A B : Type} (f : A → result B) (l : list A)
  : result (list B) :=
  match l with
  | [] => Ok []
  | a :: l' => b ← f a; bs ← comprehension f l'; Ok (b :: bs)
  end.

(** [d[key]] *)
Definition getitem `{Countable K} {A : Type} (d : gmap K A) (key : K)
  : result A :=
  match d !! key with
  | Some a => Ok a
  | None => Raise KeyError
  end.

(** [range(1, k + 1)] *)
Definition range1 (k : nat) : list nat := seq 1 k.

(** [itertools.combinations(l, 2)] *)
Fixpoint combinations2 {A : Type} (l : list A) : list (A * A) :=
  match l with
  | [] => []
  | v :: l' => map (pair v) l' ++ combinations2 l'
  end.

(** ** The PuLP objects the function uses *)

Inductive LpCategory := LpContinuous | LpInteger | LpBinary.

Record LpVariable := mkLpVariable {
  name : string;
  lowBound : option Z;
  upBound : option Z;
  cat : LpCategory
}.

(** A linear expression: coefficient-variable terms and a constant. *)
Record LpAffineExpression := mkAffine {
  terms : list (Z * LpVariable);
  constant : Z
}.

Definition var_expr (x : LpVariable) : LpAffineExpression :=
  {| terms := [(1%Z, x)]; constant := 0 |}.
Definition const_expr (c : Z) : LpAffineExpression :=
  {| terms := []; constant := c |}.
Definition expr_add (e1 e2 : LpAffineExpression) : LpAffineExpression :=
  {| terms := terms e1 ++ terms e2; constant := constant e1 + constant e2 |}.
Definition expr_mul (c : Z) (e : LpAffineExpression) : LpAffineExpression :=
  {| terms := map (λ t, ((c * t.1)%Z, t.2)) (terms e);
     constant := c * constant e |}.
Definition lpSum (xs : list LpVariable) : LpAffineExpression :=
  foldl (λ e x, expr_add e (var_expr x)) (const_expr 0) xs.

Inductive LpConstraintSense := LpConstraintLE | LpConstraintEQ | LpConstraintGE.

(** [lhs <= rhs], [lhs == rhs] or [lhs >= rhs], as the source writes it. *)
Record LpConstraint := mkConstraint {
  lhs : LpAffineExpression;
  sense : LpConstraintSense;
  rhs : LpAffineExpression
}.

Inductive LpSense := LpMinimize | LpMaximize.

Record LpProblem := mkLpProblem {
  problem_name : string;
  problem_sense : LpSense;
  objective : option LpAffineExpression;
  constraints : list (string * LpConstraint)
}.

(** [LpProblem(name=..., sense=...)] *)
Definition new_problem (n : string) (s : LpSense) : LpProblem :=
  {| problem_name := n; problem_sense := s; objective := None;
     constraints := [] |}.

(** [model += e] for an expression [e]: sets the objective. *)
Definition set_objective (e : LpAffineExpression) (m : LpProblem) : LpProblem :=
  {| problem_name := problem_name m; problem_sense := problem_sense m;
     objective := Some e; constraints := constraints m |}.

(** [model += c, n] for a constraint [c]: appends it under the name [n],
    and raises [PulpError] ("overlapping constraint names") when the problem
    already has a constraint of that name. *)
Definition add_constraint (c : LpConstraint) (n : string) (m : LpProblem)
  : result LpProblem :=
  if decide (n ∈ (constraints m).*1) then Raise PulpError
  else Ok {| problem_name := problem_name m;
             problem_sense := problem_sense m;
             objective := objective m;
             constraints := constraints m ++ [(n, c)] |}.

Inductive LpStatus :=
  | LpStatusNotSolved
  | LpStatusOptimal
  | LpStatusInfeasible
  | LpStatusUnbounded
  | LpStatusUndefined.

#[global] Instance LpStatus_eq_dec : EqDecision LpStatus.
Proof. solve_decision. Defined.

(** What the backend leaves behind: each variable's [varValue], by name. *)
Definition solution := string → option Q.

Definition varValue (sol : solution) (x : LpVariable) : option Q :=
  sol (name x).

(** ** Meaning of a model: when a solution is feasible *)

Definition Qlt_bool (a b : Q) : bool := negb (Qle_bool b a).

Definition is_integral (q : Q) : bool :=
  (Qnum q mod Z.pos (Qden q) =? 0)%Z.

Definition above_low (lo : option Z) (q : Q) : bool :=
  match lo with
  | Some l => Qle_bool (inject_Z l) q
  | None => true
  end.

Definition below_up (up : option Z) (q : Q) : bool :=
  match up with
  | Some u => Qle_bool q (inject_Z u)
  | None => true
  end.

(** The domain of a variable: its bounds and its category. *)
Definition in_domain (x : LpVariable) (q : Q) : bool :=
  above_low (lowBound x) q && below_up (upBound x) q &&
  match cat x with
  | LpContinuous => true
  | LpInteger => is_integral q
  | LpBinary => is_integral q && Qle_bool 0 q && Qle_bool q 1
  end.

Fixpoint terms_value (sol : solution) (ts : list (Z * LpVariable))
  : option Q :=
  match ts with
  | [] => Some 0%Q
  | (c, x) :: ts' =>
      match varValue sol x, terms_value sol ts' with
      | Some q, Some r => Some (inject_Z c * q + r)%Q
      | _, _ => None
      end
  end.

Definition expr_value (sol : solution) (e : LpAffineExpression) : option Q :=
  match terms_value sol (terms e) with
  | Some r => Some (r + inject_Z (constant e))%Q
  | None => None
  end.

Definition satisfies (sol : solution) (c : LpConstraint) : bool :=
  match expr_value sol (lhs c), expr_value sol (rhs c) with
  | Some a, Some b =>
      match sense c with
      | LpConstraintLE => Qle_bool a b
      | LpConstraintEQ => Qeq_bool a b
      | LpConstraintGE => Qle_bool b a
      end
  | _, _ => false
  end.

Definition expr_variables (e : LpAffineExpression) : list LpVariable :=
  map snd (terms e).

(** The variables of a problem are those of its objective and of its
    constraints. *)
Definition variables (m : LpProblem) : list LpVariable :=
  from_option expr_variables [] (objective m) ++
  flat_map (λ nc, expr_variables (lhs nc.2) ++ expr_variables (rhs nc.2))
           (constraints m).

Definition has_domain_value (sol : solution) (x : LpVariable) : bool :=
  match varValue sol x with
  | Some q => in_domain x q
  | None => false
  end.

Definition feasibleb (m : LpProblem) (sol : solution) : bool :=
  forallb (has_domain_value sol) (variables m) &&
  forallb (λ nc, satisfies sol nc.2) (constraints m).

(** [sol] gives every variable of [m] a value of its domain and satisfies
    every constraint of [m]. *)
Definition feasible (m : LpProblem) (sol : solution) : Prop :=
  feasibleb m sol = true.

(** ** The program *)

Section packing_coloring.
Context `{Countable V}.

(** A NetworkX graph: [G.nodes] in iteration order, and its edges. *)
Record Graph := mkGraph {
  nodes : list V;
  edges : list (V * V)
}.

Definition number_of_nodes (G : Graph) : nat := length (nodes G).

(** [str(v)], as the f-strings format a vertex and as PuLP keeps it in a
    name: PuLP replaces the characters it does not allow in a name (a
    space, a sign, a bracket) by an underscore, one by one, which leaves
    the rest of the names below as they are.  A text with [>] or [/], which
    PuLP replaces in the name of a variable and keeps in the name of a
    constraint, is not covered. *)
Variable str : V → string.
(** [dict(nx.all_pairs_shortest_path_length(G))] *)
Variable all_pairs_shortest_path_length : Graph → gmap V (gmap V nat).
(** [model.solve(pulp.CPLEX_PY(msg=False))]: the status and the values. *)
Variable solve : LpProblem → LpStatus * solution.

Definition x_name (v : V) (i : nat) : string :=
  "x_" +:+ str v +:+ "_" +:+ pretty i.
Definition OneColor_name (v : V) : string := "OneColor_" +:+ str v.
Definition Pack_name (v u : V) (i : nat) : string :=
  "Pack_" +:+ str v +:+ "_" +:+ str u +:+ "_color_" +:+ pretty i.
Definition MaxColor_name (v : V) (i : nat) : string :=
  "MaxColor_" +:+ str v +:+ "_" +:+ pretty i.

(** Line 25: the dict comprehension creating [x]. *)
Definition make_x (G : Graph) (k : nat) : gmap (V * nat) LpVariable :=
  foldl (λ x vi, <[vi := mkLpVariable (x_name vi.1 vi.2) None None LpBinary]> x)
        ∅
        (v ← nodes G; i ← range1 k; [(v, i)]).

(** Line 28 *)
Definition make_z (k : nat) : LpVariable :=
  mkLpVariable "z" (Some 1%Z) (Some (Z.of_nat k)) LpInteger.

(** Lines 34-35 *)
Definition add_one_color (G : Graph) (k : nat)
    (x : gmap (V * nat) LpVariable) (model : LpProblem) : result LpProblem :=
  for_ (nodes G) (λ v model,
    xs ← comprehension (λ i, getitem x (v, i)) (range1 k);
    add_constraint
      (mkConstraint (lpSum xs) LpConstraintEQ (const_expr 1))
      (OneColor_name v) model) model.

(** Lines 40-44 *)
Definition add_packing (G : Graph) (k : nat)
    (x : gmap (V * nat) LpVariable) (distances : gmap V (gmap V nat))
    (model : LpProblem) : result LpProblem :=
  for_ (range1 k) (λ i model,
    for_ (combinations2 (nodes G)) (λ vu model,
      let '(v, u) := vu in
      dv ← getitem distances v;
      match dv !! u with
      | Some d =>
          if decide (d ≤ i)%nat then
            xv ← getitem x (v, i);
            xu ← getitem x (u, i);
            add_constraint
              (mkConstraint (expr_add (var_expr xv) (var_expr xu))
                            LpConstraintLE (const_expr 1))
              (Pack_name v u i) model
          else Ok model
      | None => Ok model
      end) model) model.

(** Lines 47-49 *)
Definition add_max_color (G : Graph) (k : nat)
    (x : gmap (V * nat) LpVariable) (z : LpVariable) (model : LpProblem)
  : result LpProblem :=
  for_ (nodes G) (λ v model,
    for_ (range1 k) (λ i model,
      xv ← getitem x (v, i);
      add_constraint
        (mkConstraint (expr_mul (Z.of_nat i) (var_expr xv))
                      LpConstraintLE (var_expr z))
        (MaxColor_name v i) model) model) model.

(** Lines 19-49: everything up to the call of the solver. *)
Definition build_model (G : Graph)
  : result (gmap (V * nat) LpVariable * LpVariable * LpProblem) :=
  let k := number_of_nodes G in
  let model := new_problem "PackingColoring" LpMinimize in
  let x := make_x G k in
  let z := make_z k in
  let model := set_objective (var_expr z) model in
  model ← add_one_color G k x model;
  let distances := all_pairs_shortest_path_length G in
  model ← add_packing G k x distances model;
  model ← add_max_color G k x z model;
  Ok (x, z, model).

(** Lines 60-63: the inner loop with its [break]; [None] when no color of
    [colors] passes the test. *)
Fixpoint first_color (sol : solution) (x : gmap (V * nat) LpVariable)
    (v : V) (colors : list nat) : result (option nat) :=
  match colors with
  | [] => Ok None
  | i :: colors' =>
      xv ← getitem x (v, i);
      match varValue sol xv with
      | None => Raise TypeError
      | Some q =>
          if Qlt_bool 0.5 q then Ok (Some i)
          else first_color sol x v colors'
      end
  end.

(** Lines 58-63 *)
Definition extract_colors (G : Graph) (k : nat) (sol : solution)
    (x : gmap (V * nat) LpVariable) : result (gmap V nat) :=
  for_ (nodes G) (λ v (color_assignment : gmap V nat),
    c ← first_color sol x v (range1 k);
    match c with
    | Some i => Ok (<[v := i]> color_assignment)
    | None => Ok color_assignment
    end) ∅.

(** The whole function.  Python's [None, None] is [(None, None)]. *)
Definition solve_packing_coloring (G : Graph)
  : result (option (gmap V nat) * option Q) :=
  '(x, z, model) ← build_model G;
  let k := number_of_nodes G in
  let '(status, sol) := solve model in
  if decide (status = LpStatusOptimal) then
    let z_val := varValue sol z in
    color_assignment ← extract_colors G k sol x;
    Ok (Some color_assignment, z_val)
  else Ok (None, None).

End packing_coloring.

Arguments Graph : clear implicits.
Arguments mkGraph {V} nodes edges.

(** ** The model in closed form

    What the three loops append, written without the dict [x] and without
    exceptions.  [build_model_Ok_inv] below proves that a model the program
    returns is exactly this, and [build_model_distinct] that it returns one
    when no lookup and no name fails. *)

Section closed_form.
Context `{Countable V}.
Variable str : V → string.

Definition x_var (v : V) (i : nat) : LpVariable :=
  mkLpVariable (x_name str v i) None None LpBinary.

(** [distances[v].get(u)] once [distances[v]] exists. *)
Definition distance (distances : gmap V (gmap V nat)) (v u : V)
  : option nat :=
  distances !! v ≫= (.!! u).

Definition one_color_constraint (k : nat) (v : V) : LpConstraint :=
  mkConstraint (lpSum (map (x_var v) (range1 k))) LpConstraintEQ
               (const_expr 1).

Definition packing_constraint (v u : V) (i : nat) : LpConstraint :=
  mkConstraint (expr_add (var_expr (x_var v i)) (var_expr (x_var u i)))
               LpConstraintLE (const_expr 1).

Definition max_color_constraint (k : nat) (v : V) (i : nat) : LpConstraint :=
  mkConstraint (expr_mul (Z.of_nat i) (var_expr (x_var v i)))
               LpConstraintLE (var_expr (make_z k)).

Definition one_color_rows (G : Graph V) (k : nat)
  : list (string * LpConstraint) :=
  map (λ v, (OneColor_name str v, one_color_constraint k v)) (nodes G).

Definition packing_row (distances : gmap V (gmap V nat)) (i : nat)
    (vu : V * V) : list (string * LpConstraint) :=
  match distance distances vu.1 vu.2 with
  | Some d =>
      if decide (d ≤ i)%nat
      then [(Pack_name str vu.1 vu.2 i, packing_constraint vu.1 vu.2 i)]
      else []
  | None => []
  end.

Definition packing_rows (G : Graph V) (k : nat)
    (distances : gmap V (gmap V nat)) : list (string * LpConstraint) :=
  i ← range1 k; vu ← combinations2 (nodes G); packing_row distances i vu.

Definition max_color_rows (G : Graph V) (k : nat)
  : list (string * LpConstraint) :=
  v ← nodes G; i ← range1 k;
  [(MaxColor_name str v i, max_color_constraint k v i)].

Definition closed_model (G : Graph V) (distances : gmap V (gmap V nat))
  : LpProblem :=
  let k := number_of_nodes G in
  {| problem_name := "PackingColoring";
     problem_sense := LpMinimize;
     objective := Some (var_expr (make_z k));
     constraints := one_color_rows G k ++ packing_rows G k distances ++
                    max_color_rows G k |}.

(** The names lines 35, 44 and 49 give to the constraints, in the order
    the loops reach them. *)
Definition constraint_names (G : Graph V) (distances : gmap V (gmap V nat))
  : list string :=
  let k := number_of_nodes G in
  (OneColor_name str <$> nodes G) ++
  (i ← range1 k; vu ← combinations2 (nodes G);
   match distance distances vu.1 vu.2 with
   | Some d => if decide (d ≤ i)%nat then [Pack_name str vu.1 vu.2 i] else []
   | None => []
   end) ++
  (v ← nodes G; i ← range1 k; [MaxColor_name str v i]).

(** The distance table has a row for every vertex of the graph. *)
Definition covers (G : Graph V) (distances : gmap V (gmap V nat)) : Prop :=
  ∀ v, v ∈ nodes G → is_Some (distances !! v).

(** The distance table of an undirected graph: the same entry for the two
    orders of a pair of vertices. *)
Definition symmetric (G : Graph V) (distances : gmap V (gmap V nat))
  : Prop :=
  ∀ v u, v ∈ nodes G → u ∈ nodes G →
         distance distances v u = distance distances u v.

#[global] Instance covers_dec G distances : Decision (covers G distances).
Proof.
  refine (cast_if (decide (Forall (λ v, is_Some (distances !! v))
                                  (nodes G))));
    [ intros v Hv;
      match goal with
      | f : Forall _ _ |- _ => exact (proj1 (Forall_forall _ _) f v Hv)
      end
    | intros Hc;
      match goal with
      | n : ¬ Forall _ _ |- _ => apply n, Forall_forall, Hc
      end ].
Defined.

#[global] Instance symmetric_dec G distances :
  Decision (symmetric G distances).
Proof.
  refine (cast_if (decide
            (Forall (λ v, Forall (λ u, distance distances v u
                                       = distance distances u v) (nodes G))
                    (nodes G))));
    [ intros v u Hv Hu;
      match goal with
      | f : Forall _ _ |- _ =>
          exact (proj1 (Forall_forall _ _)
                   (proj1 (Forall_forall _ _) f v Hv) u Hu)
      end
    | intros Hs;
      match goal with
      | n : ¬ Forall _ _ |- _ =>
          apply n, Forall_forall; intros v Hv;
          apply Forall_forall; intros u Hu; by apply Hs
      end ].
Defined.

(** [i] is the first color of [range(1, k + 1)] whose variable of [v] has
    a value above 0.5. *)
Definition first_above (sol : solution) (k : nat) (v : V) (i : nat) : Prop :=
  (1 ≤ i ≤ k)%nat ∧
  (∃ q, sol (x_name str v i) = Some q ∧ (0.5 < q)%Q) ∧
  ∀ j, (1 ≤ j < i)%nat → ∃ q, sol (x_name str v j) = Some q ∧ (q <= 0.5)%Q.

End closed_form.

Definition add_constraints (rows : list (string * LpConstraint))
    (m : LpProblem) : LpProblem :=
  {| problem_name := problem_name m; problem_sense := problem_sense m;
     objective := objective m; constraints := constraints m ++ rows |}.

(** [model += c, n] for every [(n, c)] of [rows], in order. *)
Definition add_rows (rows : list (string * LpConstraint)) (m : LpProblem)
  : result LpProblem :=
  for_ rows (λ nc m, add_constraint nc.2 nc.1 m) m.

(** ** Instances

    A distance oracle in the manner of [all_pairs_shortest_path_length]
    (breadth-first search from every vertex, unreachable vertices left out
    of the row), a backend that checks a candidate solution, and small
    graphs to run the program on. *)

Section bfs.
Context `{Countable V}.

Definition neighbours (G : Graph V) (v : V) : list V :=
  flat_map (λ e : V * V,
              if decide (e.1 = v) then [e.2]
              else if decide (e.2 = v) then [e.1] else [])
           (edges G).

Fixpoint bfs_levels (G : Graph V) (fuel d : nat) (frontier : list V)
    (dist : gmap V nat) : gmap V nat :=
  match fuel with
  | O => dist
  | S fuel' =>
      let next :=
        remove_dups (filter (λ u, dist !! u = None)
                            (flat_map (neighbours G) frontier)) in
      bfs_levels G fuel' (S d) next
                 (foldl (λ dist u, <[u := S d]> dist) dist next)
  end.

Definition bfs_distances (G : Graph V) : gmap V (gmap V nat) :=
  foldl (λ distances s,
           <[s := bfs_levels G (length (nodes G)) 0 [s] {[s := 0%nat]}]>
             distances)
        ∅ (nodes G).
End bfs.

(** The values of a solution, listed by variable name. *)
Definition values (l : list (string * Q)) : solution :=
  λ n, (list_to_map l : gmap string Q) !! n.

(** A backend that reports [candidate] as optimal when it is feasible for
    the model, and the model as infeasible otherwise. *)
Definition checking_solver (candidate : solution) (m : LpProblem)
  : LpStatus * solution :=
  if feasibleb m candidate then (LpStatusOptimal, candidate)
  else (LpStatusInfeasible, λ _, None).

(** The path 1 - 2 - 3. *)
Definition P3 : Graph nat := mkGraph [1; 2; 3]%nat [(1, 2); (2, 3)]%nat.

(** The coloring 1, 2, 1 of the path, with [z = 2]. *)
Definition P3_values : solution :=
  values [("x_1_1", 1%Q); ("x_1_2", 0%Q); ("x_1_3", 0%Q);
          ("x_2_1", 0%Q); ("x_2_2", 1%Q); ("x_2_3", 0%Q);
          ("x_3_1", 1%Q); ("x_3_2", 0%Q); ("x_3_3", 0%Q); ("z", 2%Q)].

Definition P3_colors : gmap nat nat :=
  {[1%nat := 1%nat; 2%nat := 2%nat; 3%nat := 1%nat]}.

(** The graph without vertices. *)
Definition empty_graph : Graph nat := mkGraph [] [].

(** The coloring 1, 2, 1 of the path as a function. *)
Definition P3_coloring (v : nat) : nat := if decide (v = 2%nat) then 2 else 1.

(** A backend that reports an optimal status and leaves every [varValue]
    at [None]. *)
Definition unvalued_solver (m : LpProblem) : LpStatus * solution :=
  (LpStatusOptimal, values []).

(** The complete graph on two vertices, and its coloring 1, 2. *)
Definition K2 : Graph nat := mkGraph [1; 2]%nat [(1, 2)]%nat.

Definition K2_values : solution :=
  values [("x_1_1", 1%Q); ("x_1_2", 0%Q);
          ("x_2_1", 0%Q); ("x_2_2", 1%Q); ("z", 2%Q)].

(** Two vertices without an edge, both with the color 1. *)
Definition two_isolated : Graph nat := mkGraph [1; 2]%nat [].

Definition two_isolated_values : solution :=
  values [("x_1_1", 1%Q); ("x_1_2", 0%Q);
          ("x_2_1", 1%Q); ("x_2_2", 0%Q); ("z", 1%Q)].

(** An oracle that returns a table without rows. *)
Definition no_rows (G : Graph nat) : gmap nat (gmap nat nat) := ∅.

(** A table for the path with the entries of the enumerated pairs only: no
    diagonal, no reversed pair, no row for the last vertex. *)
Definition P3_upper_distances (G : Graph nat) : gmap nat (gmap nat nat) :=
  {[1%nat := {[2%nat := 1%nat; 3%nat := 2%nat]};
    2%nat := {[3%nat := 1%nat]}]}.

(** Four vertices that are strings, with the edges "1_2" - "3" and
    "1" - "2_3": with the vertices formatted as they are, the names of the
    packing constraints of these two pairs are the same for every color. *)
Definition named_pairs : Graph string :=
  mkGraph ["1_2"; "3"; "1"; "2_3"] [("1_2", "3"); ("1", "2_3")].

(** ** Optimal solutions, and colorings as solutions *)

Definition objective_value (m : LpProblem) (sol : solution) : option Q :=
  objective m ≫= expr_value sol.

(** A feasible solution whose objective value no feasible solution
    undercuts: what an exact backend reports as optimal for a
    minimisation. *)
Definition optimal (m : LpProblem) (sol : solution) : Prop :=
  feasible m sol ∧
  ∀ sol' q q',
    feasible m sol' →
    objective_value m sol = Some q → objective_value m sol' = Some q' →
    (q <= q')%Q.

Section colorings.
Context `{Countable V}.
Variable str : V → string.

(** The names of the [x] variables, in the order line 25 creates them. *)
Definition x_names (G : Graph V) (k : nat) : list string :=
  v ← nodes G; i ← range1 k; [x_name str v i].

(** The distance table has a row for the first vertex of every pair the
    packing loop enumerates: [distances[v]] is only evaluated for these. *)
Definition rows_present (G : Graph V) (distances : gmap V (gmap V nat))
  : Prop :=
  ∀ v u, (v, u) ∈ combinations2 (nodes G) → is_Some (distances !! v).

(** The values of a coloring: [x(v,i)] is 1 when [c v = i] and 0
    otherwise, and [z] is [zc]. *)
Definition encode (G : Graph V) (k : nat) (c : V → nat) (zc : nat)
  : solution :=
  values (("z", inject_Z (Z.of_nat zc)) ::
          (v ← nodes G; i ← range1 k;
           [(x_name str v i, if decide (c v = i) then 1%Q else 0%Q)])).

(** [c] colors the vertices with colors of [1..zc], [zc] at most the
    number of vertices, and two vertices of an enumerated pair with the same
    color [i] are at a distance above [i] when the table has one. *)
Definition packing_coloring (G : Graph V) (distances : gmap V (gmap V nat))
    (c : V → nat) (zc : nat) : Prop :=
  (1 ≤ zc ≤ number_of_nodes G)%nat ∧
  (∀ v, v ∈ nodes G → (1 ≤ c v ≤ zc)%nat) ∧
  ∀ v u d, (v, u) ∈ combinations2 (nodes G) →
           distance distances v u = Some d → c v = c u → (c v < d)%nat.

(** The place of a vertex in a list, from 1: the coloring that gives every
    vertex a color of its own. *)
Fixpoint position (l : list V) (v : V) : nat :=
  match l with
  | [] => 0
  | a :: l' => if decide (a = v) then 1 else S (position l' v)
  end.

End colorings.

(** * Properties *)

(** ** Loops, comprehensions and added rows *)

Lemma add_constraints_nil m : add_constraints [] m = m.
Proof. destruct m; unfold add_constraints; simpl. by rewrite app_nil_r. Qed.

Lemma add_constraints_app rows1 rows2 m :
  add_constraints rows2 (add_constraints rows1 m)
  = add_constraints (rows1 ++ rows2) m.
Proof. unfold add_constraints; simpl. by rewrite app_assoc. Qed.

Lemma bind_Ok {A} (r : result A) : r ≫= Ok = r.
Proof. by destruct r. Qed.

Lemma add_rows_singleton n c m : add_rows [(n, c)] m = add_constraint c n m.
Proof. unfold add_rows. simpl. apply bind_Ok. Qed.

Lemma add_rows_app rows1 rows2 m :
  add_rows (rows1 ++ rows2) m = add_rows rows1 m ≫= add_rows rows2.
Proof.
  unfold add_rows. revert m. induction rows1 as [|[n c] rows1 IH]; intros m.
  - done.
  - simpl. destruct (add_constraint c n m) as [m'|e]; simpl; [apply IH|done].
Qed.

(** A loop whose body adds rows adds the rows of all its rounds. *)
Lemma for_add_rows {A} (l : list A)
    (body : A → LpProblem → result LpProblem)
    (rows : A → list (string * LpConstraint)) :
  (∀ a m, a ∈ l → body a m = add_rows (rows a) m) →
  ∀ m, for_ l body m = add_rows (l ≫= rows) m.
Proof.
  induction l as [|a l IH]; intros Hbody m; [done|].
  rewrite bind_cons, add_rows_app. simpl. rewrite Hbody by left.
  destruct (add_rows (rows a) m) as [m'|e]; simpl; [|done].
  apply IH. intros b m0 Hb. apply Hbody. by right.
Qed.

(** Rows with new and distinct names are all added. *)
Lemma add_rows_Ok rows m :
  NoDup rows.*1 → (∀ n, n ∈ rows.*1 → n ∉ (constraints m).*1) →
  add_rows rows m = Ok (add_constraints rows m).
Proof.
  revert m. induction rows as [|[n c] rows IH]; intros m Hnd Hfresh.
  - unfold add_rows. simpl. by rewrite add_constraints_nil.
  - rewrite fmap_cons in Hnd, Hfresh. simpl in Hnd, Hfresh.
    apply NoDup_cons in Hnd as [Hn Hnd].
    rewrite (add_rows_app [(n, c)] rows), add_rows_singleton.
    unfold add_constraint.
    rewrite decide_False by (apply Hfresh; by left). simpl.
    rewrite IH; [f_equal; exact (add_constraints_app [(n, c)] rows m)|done|].
    intros n' Hn'. simpl. rewrite fmap_app. simpl.
    intros [Hin| ->%list_elem_of_singleton]%elem_of_app; [|done].
    revert Hin. apply Hfresh. by right.
Qed.

(** Adding rows fails only on a name that is there already, with
    [PulpError]. *)
Lemma add_rows_inv rows m :
  (add_rows rows m = Ok (add_constraints rows m) ∧
   NoDup rows.*1 ∧ ∀ n, n ∈ rows.*1 → n ∉ (constraints m).*1) ∨
  (add_rows rows m = Raise PulpError ∧
   ¬ (NoDup rows.*1 ∧ ∀ n, n ∈ rows.*1 → n ∉ (constraints m).*1)).
Proof.
  revert m. induction rows as [|[n c] rows IH]; intros m.
  - left. split; [by apply add_rows_Ok; [constructor|intros ? ?%elem_of_nil]|].
    split; [constructor|]. by intros ? ?%elem_of_nil.
  - rewrite (add_rows_app [(n, c)] rows), add_rows_singleton, fmap_cons.
    unfold add_constraint. simpl.
    destruct (decide (n ∈ (constraints m).*1)) as [Hin|Hnin]; simpl.
    + right. split; [done|]. intros [_ Hfresh]. apply (Hfresh n); [by left|done].
    + destruct (IH {| problem_name := problem_name m;
                      problem_sense := problem_sense m;
                      objective := objective m;
                      constraints := constraints m ++ [(n, c)] |})
        as [(Hok & Hnd & Hfresh)|(Hraise & Hnot)].
      * left. rewrite Hok.
        split; [f_equal; exact (add_constraints_app [(n, c)] rows m)|].
        simpl in Hfresh. rewrite fmap_app in Hfresh. simpl in Hfresh.
        split.
        -- apply NoDup_cons. split; [|done]. intros Hn.
           apply (Hfresh n Hn), elem_of_app. right. by left.
        -- intros n' [->|Hn']%elem_of_cons; [done|].
           intros Hin. apply (Hfresh n' Hn'), elem_of_app. by left.
      * right. split; [done|]. intros [Hnd Hfresh]. apply Hnot.
        apply NoDup_cons in Hnd as [Hn Hnd]. split; [done|].
        intros n' Hn'. simpl. rewrite fmap_app. simpl.
        intros [Hin| ->%list_elem_of_singleton]%elem_of_app; [|done].
        revert Hin. apply Hfresh. by right.
Qed.

(** A loop with a round that always raises never completes. *)
Lemma for_fails {A S} (l : list A) (body : A → S → result S) (a : A) :
  a ∈ l → (∀ s, ∃ e, body a s = Raise e) →
  ∀ s, ∃ e, for_ l body s = Raise e.
Proof.
  intros Ha Hraise. induction l as [|b l IH]; [by apply elem_of_nil in Ha|].
  intros s. simpl. destruct (body b s) as [s'|e] eqn:Hb; simpl; [|by eexists].
  apply elem_of_cons in Ha as [->|Ha].
  - destruct (Hraise s) as [e He]. congruence.
  - by apply IH.
Qed.

(** A loop whose rounds either raise [KeyError] or add rows with new and
    distinct names raises [KeyError] as soon as one round does. *)
Lemma for_key_error {A} (l : list A)
    (body : A → LpProblem → result LpProblem)
    (rows : A → list (string * LpConstraint)) (bad : A → Prop)
    `{!∀ a, Decision (bad a)} :
  (∀ a m, a ∈ l → bad a → body a m = Raise KeyError) →
  (∀ a m, a ∈ l → ¬ bad a → body a m = add_rows (rows a) m) →
  (∃ a, a ∈ l ∧ bad a) →
  ∀ m, NoDup (l ≫= rows).*1 →
       (∀ n, n ∈ (l ≫= rows).*1 → n ∉ (constraints m).*1) →
       for_ l body m = Raise KeyError.
Proof.
  induction l as [|a l IH]; intros Hbad Hgood (b & Hb & Hbb) m Hnd Hfresh.
  - by apply elem_of_nil in Hb.
  - simpl. destruct (decide (bad a)) as [Ha|Ha].
    + rewrite Hbad; [done|by left|done].
    + rewrite Hgood; [|by left|done].
      rewrite bind_cons, fmap_app in Hnd, Hfresh.
      apply NoDup_app in Hnd as (Hnd1 & Hdisj & Hnd2).
      rewrite add_rows_Ok;
        [simpl|done|intros n Hn; apply Hfresh, elem_of_app; by left].
      apply IH.
      * intros a' m' Ha'. apply Hbad. by right.
      * intros a' m' Ha'. apply Hgood. by right.
      * exists b. split; [|done].
        by apply elem_of_cons in Hb as [->|Hb].
      * done.
      * intros n Hn. simpl. rewrite fmap_app.
        intros [Hin|Hin]%elem_of_app.
        -- apply (Hfresh n); [apply elem_of_app; by right|done].
        -- by apply (Hdisj n).
Qed.

Lemma bind_ext_elem_of {A B} (f g : A → list B) (l : list A) :
  (∀ a, a ∈ l → f a = g a) → l ≫= f = l ≫= g.
Proof.
  induction l as [|a l IH]; intros Hfg; [done|].
  rewrite !bind_cons, (Hfg a) by left.
  rewrite IH; [done|]. intros b Hb. apply Hfg. by right.
Qed.

Lemma fmap_of_bind {A B C} (f : B → C) (g : A → list B) (l : list A) :
  f <$> (l ≫= g) = l ≫= (λ a, f <$> g a).
Proof.
  induction l as [|a l IH]; [done|].
  by rewrite !bind_cons, fmap_app, IH.
Qed.

Lemma lpSum_terms (xs : list LpVariable) :
  lpSum xs = mkAffine (map (pair 1%Z) xs) 0.
Proof.
  unfold lpSum.
  enough (∀ e, foldl (λ e x, expr_add e (var_expr x)) e xs
               = mkAffine (terms e ++ map (pair 1%Z) xs) (constant e)) as ->
    by done.
  induction xs as [|x xs IH]; intros [ts c]; simpl.
  - by rewrite app_nil_r.
  - rewrite IH. simpl. rewrite <- app_assoc. f_equal. lia.
Qed.

Lemma comprehension_map {A B} (f : A → result B) (g : A → B) (l : list A) :
  (∀ a, a ∈ l → f a = Ok (g a)) → comprehension f l = Ok (map g l).
Proof.
  induction l as [|a l IH]; intros Hf; simpl; [done|].
  rewrite Hf by left. simpl.
  rewrite IH by (intros; apply Hf; by right). done.
Qed.

Lemma getitem_Some `{Countable K} {A} (d : gmap K A) (key : K) (a : A) :
  d !! key = Some a → getitem d key = Ok a.
Proof. unfold getitem. by intros ->. Qed.

Lemma bind_singleton_map {A B} (f : A → B) (l : list A) :
  l ≫= (λ a, [f a]) = map f l.
Proof. induction l as [|a l IH]; simpl; [done|]. by rewrite <- IH. Qed.

Lemma elem_of_range1 k i : i ∈ range1 k ↔ (1 ≤ i ≤ k)%nat.
Proof. unfold range1. rewrite elem_of_seq. lia. Qed.

Lemma elem_of_combinations2 {A} (l : list A) v u :
  v ∈ l → u ∈ l → v ≠ u →
  (v, u) ∈ combinations2 l ∨ (u, v) ∈ combinations2 l.
Proof.
  induction l as [|a l IH]; intros Hv Hu Hne; [by apply elem_of_nil in Hv|].
  simpl. apply elem_of_cons in Hv as [->|Hv], Hu as [->|Hu].
  - done.
  - left. apply elem_of_app. left. by apply list_elem_of_fmap_2.
  - right. apply elem_of_app. left. by apply list_elem_of_fmap_2.
  - destruct (IH Hv Hu Hne); [left|right]; apply elem_of_app; by right.
Qed.

Lemma combinations2_elem_of {A} (l : list A) v u :
  (v, u) ∈ combinations2 l → v ∈ l ∧ u ∈ l.
Proof.
  induction l as [|a l IH]; simpl; [by intros ?%elem_of_nil|].
  intros [Hin|Hin]%elem_of_app.
  - apply list_elem_of_fmap in Hin as (y & [= -> ->] & Hy).
    split; [by left|by right].
  - destruct (IH Hin). split; by right.
Qed.

(** ** The model builder *)

Section builder.
Context `{Countable V}.
Variable str : V → string.
Variable all_pairs_shortest_path_length : Graph V → gmap V (gmap V nat).

Local Abbreviation build_model := (build_model str all_pairs_shortest_path_length).
Local Abbreviation x_var := (x_var str).
Local Abbreviation make_x := (make_x str).

Lemma lookup_insert_all {A} (f : V * nat → A) (l : list (V * nat))
    (x0 : gmap (V * nat) A) (vi : V * nat) :
  foldl (λ x vi, <[vi := f vi]> x) x0 l !! vi
  = if decide (vi ∈ l) then Some (f vi) else x0 !! vi.
Proof.
  revert x0. induction l as [|a l IH]; intros x0; simpl.
  - done.
  - rewrite IH. destruct (decide (vi ∈ l)) as [Hin|Hnin].
    + rewrite decide_True; [done|by right].
    + destruct (decide (a = vi)) as [->|Hne].
      * rewrite lookup_insert_eq, decide_True; [done|by left].
      * rewrite lookup_insert_ne by done.
        rewrite decide_False; [done|].
        intros [?|?]%elem_of_cons; congruence.
Qed.

(** The dict [x] has exactly the keys [(v, i)] with [v] a vertex and
    [i] in [range(1, k + 1)], each bound to a binary variable. *)
Lemma lookup_make_x (G : Graph V) (k : nat) (v : V) (i : nat) :
  make_x G k !! (v, i)
  = if decide (v ∈ nodes G ∧ (1 ≤ i ≤ k)%nat) then Some (x_var v i) else None.
Proof.
  unfold make_x.
  rewrite (lookup_insert_all (λ vi, mkLpVariable (x_name str vi.1 vi.2)
                                      None None LpBinary)).
  rewrite lookup_empty. simpl.
  assert ((v, i) ∈ (v ← nodes G; i ← range1 k; [(v, i)])
          ↔ v ∈ nodes G ∧ (1 ≤ i ≤ k)%nat) as Hiff.
  { rewrite list_elem_of_bind. split.
    - intros (v' & Hin & Hv'). apply list_elem_of_bind in Hin as (i' & Hin & Hi').
      apply list_elem_of_singleton in Hin as [= -> ->].
      by apply elem_of_range1 in Hi'.
    - intros [Hv Hi]. exists v. split; [|done].
      apply list_elem_of_bind. exists i. split; [by left|].
      by apply elem_of_range1. }
  destruct (decide (v ∈ nodes G ∧ (1 ≤ i ≤ k)%nat)) as [Hvi|Hvi].
  - rewrite decide_True by by apply Hiff. done.
  - rewrite decide_False by by rewrite Hiff. done.
Qed.

Lemma getitem_make_x (G : Graph V) (k : nat) (v : V) (i : nat) :
  v ∈ nodes G → i ∈ range1 k → getitem (make_x G k) (v, i) = Ok (x_var v i).
Proof.
  intros Hv Hi%elem_of_range1. unfold getitem.
  rewrite lookup_make_x, decide_True; done.
Qed.

Lemma add_one_color_closed (G : Graph V) (k : nat) (m : LpProblem) :
  add_one_color str G k (make_x G k) m
  = add_rows (one_color_rows str G k) m.
Proof.
  unfold add_one_color, one_color_rows.
  rewrite <- bind_singleton_map. apply for_add_rows.
  intros v m' Hv.
  rewrite (comprehension_map _ (x_var v))
    by (intros i Hi; by apply getitem_make_x).
  simpl. by rewrite add_rows_singleton.
Qed.

Lemma covers_rows_present (G : Graph V) (D : gmap V (gmap V nat)) :
  covers G D → rows_present G D.
Proof.
  intros Hcov v u Hvu. apply Hcov.
  by apply combinations2_elem_of in Hvu as [? _].
Qed.

(** Either every enumerated pair has its row, or some pair lacks it. *)
Lemma rows_present_or_missing (G : Graph V) (distances : gmap V (gmap V nat)) :
  rows_present G distances ∨
  ∃ v u, (v, u) ∈ combinations2 (nodes G) ∧ distances !! v = None.
Proof.
  unfold rows_present.
  induction (combinations2 (nodes G)) as [|[v u] l IH].
  - left. by intros v u ?%elem_of_nil.
  - destruct IH as [IH|(v' & u' & Hin & Hnone)].
    + destruct (distances !! v) as [dv|] eqn:Hdv.
      * left. intros v' u' [[= -> ->]|Hin]%elem_of_cons; [by eexists|].
        by apply (IH v' u').
      * right. exists v, u. split; [by left|done].
    + right. exists v', u'. split; [by right|done].
Qed.

(** The round of the packing loop for a pair whose row is there. *)
Lemma packing_round (G : Graph V) (k i : nat)
    (distances : gmap V (gmap V nat)) (v u : V) (dv : gmap V nat)
    (m : LpProblem) :
  (v, u) ∈ combinations2 (nodes G) → i ∈ range1 k →
  distances !! v = Some dv →
  (dv' ← getitem distances v;
   match dv' !! u with
   | Some d =>
       if decide (d ≤ i)%nat then
         xv ← getitem (make_x G k) (v, i);
         xu ← getitem (make_x G k) (u, i);
         add_constraint
           (mkConstraint (expr_add (var_expr xv) (var_expr xu))
                         LpConstraintLE (const_expr 1))
           (Pack_name str v u i) m
       else Ok m
   | None => Ok m
   end) = add_rows (packing_row str distances i (v, u)) m.
Proof.
  intros Hvu Hi Hdv. apply combinations2_elem_of in Hvu as [Hv Hu].
  unfold packing_row, distance. simpl.
  rewrite (getitem_Some _ _ _ Hdv), Hdv. simpl.
  destruct (dv !! u) as [d|]; [|done].
  case_decide; [|done].
  rewrite !getitem_make_x by done. simpl. by rewrite add_rows_singleton.
Qed.

Lemma add_packing_closed (G : Graph V) (k : nat)
    (distances : gmap V (gmap V nat)) (m : LpProblem) :
  rows_present G distances →
  add_packing str G k (make_x G k) distances m
  = add_rows (packing_rows str G k distances) m.
Proof.
  intros Hrows. unfold add_packing, packing_rows.
  apply for_add_rows. intros i m1 Hi.
  apply for_add_rows. intros [v u] m2 Hvu.
  destruct (Hrows v u Hvu) as [dv Hdv].
  by apply (packing_round G k i distances v u dv).
Qed.

(** With a missing row the packing loop raises: [KeyError] at the pair, or
    [PulpError] before it. *)
Lemma add_packing_fails (G : Graph V) (distances : gmap V (gmap V nat))
    (x : gmap (V * nat) LpVariable) (v u : V) :
  (v, u) ∈ combinations2 (nodes G) → distances !! v = None →
  ∀ m, ∃ e, add_packing str G (number_of_nodes G) x distances m = Raise e.
Proof.
  intros Hvu Hnone. unfold add_packing.
  apply (for_fails _ _ 1%nat).
  - apply elem_of_range1. unfold number_of_nodes.
    destruct (nodes G) as [|a [|b l]]; simpl in *;
      [by apply elem_of_nil in Hvu..|lia].
  - apply (for_fails _ _ (v, u)); [done|].
    intros s. exists KeyError. unfold getitem. by rewrite Hnone.
Qed.

Lemma add_max_color_closed (G : Graph V) (k : nat) (m : LpProblem) :
  add_max_color str G k (make_x G k) (make_z k) m
  = add_rows (max_color_rows str G k) m.
Proof.
  unfold add_max_color, max_color_rows.
  apply for_add_rows. intros v m1 Hv.
  apply for_add_rows. intros i m2 Hi.
  rewrite getitem_make_x by done. simpl. by rewrite add_rows_singleton.
Qed.

(** The names of the rows of [closed_model] are [constraint_names]. *)
Lemma closed_model_names (G : Graph V) (D : gmap V (gmap V nat)) :
  (constraints (closed_model str G D)).*1 = constraint_names str G D.
Proof.
  unfold closed_model, constraint_names. cbn [constraints].
  rewrite !fmap_app. f_equal; [|f_equal].
  - unfold one_color_rows.
    induction (nodes G) as [|v l IH]; [done|]. simpl. by f_equal.
  - unfold packing_rows. rewrite fmap_of_bind.
    apply bind_ext_elem_of. intros i _. rewrite fmap_of_bind.
    apply bind_ext_elem_of. intros [v u] _. unfold packing_row. simpl.
    destruct (distance D v u); [|done]. by case_decide.
  - unfold max_color_rows. rewrite fmap_of_bind.
    apply bind_ext_elem_of. intros v _. by rewrite fmap_of_bind.
Qed.

(** With the rows of the enumerated pairs present, the builder adds the
    rows of [closed_model] one by one to the empty problem. *)
Lemma build_model_rows (G : Graph V) :
  rows_present G (all_pairs_shortest_path_length G) →
  build_model G
  = (m ← add_rows (constraints
                     (closed_model str G (all_pairs_shortest_path_length G)))
                  (set_objective (var_expr (make_z (number_of_nodes G)))
                                 (new_problem "PackingColoring" LpMinimize));
     Ok (make_x G (number_of_nodes G), make_z (number_of_nodes G), m)).
Proof.
  intros Hrows. unfold build_model, closed_model. cbn [constraints].
  rewrite add_one_color_closed, add_rows_app.
  destruct (add_rows (one_color_rows _ _ _) _) as [m1|e]; simpl; [|done].
  rewrite add_packing_closed, add_rows_app by done.
  destruct (add_rows (packing_rows _ _ _ _) _) as [m2|e]; simpl; [|done].
  rewrite add_max_color_closed.
  by destruct (add_rows (max_color_rows _ _ _) _).
Qed.

Lemma add_constraints_closed (G : Graph V) (D : gmap V (gmap V nat)) :
  add_constraints (constraints (closed_model str G D))
    (set_objective (var_expr (make_z (number_of_nodes G)))
                   (new_problem "PackingColoring" LpMinimize))
  = closed_model str G D.
Proof. done. Qed.

(** The builder raises nothing when the rows of the enumerated pairs are
    there and the names of the constraints are distinct, and its model is
    [closed_model]. *)
Lemma build_model_distinct (G : Graph V) :
  rows_present G (all_pairs_shortest_path_length G) →
  NoDup (constraint_names str G (all_pairs_shortest_path_length G)) →
  build_model G
  = Ok (make_x G (number_of_nodes G), make_z (number_of_nodes G),
        closed_model str G (all_pairs_shortest_path_length G)).
Proof.
  intros Hrows Hnd. rewrite build_model_rows by done.
  rewrite add_rows_Ok.
  - done.
  - by rewrite closed_model_names.
  - intros n _. simpl. by intros ?%elem_of_nil.
Qed.

Lemma build_model_closed_form (G : Graph V) :
  covers G (all_pairs_shortest_path_length G) →
  NoDup (constraint_names str G (all_pairs_shortest_path_length G)) →
  build_model G
  = Ok (make_x G (number_of_nodes G), make_z (number_of_nodes G),
        closed_model str G (all_pairs_shortest_path_length G)).
Proof. intros Hcov. by apply build_model_distinct, covers_rows_present. Qed.

(** With clashing names the builder raises [PulpError]. *)
Lemma build_model_clash (G : Graph V) :
  rows_present G (all_pairs_shortest_path_length G) →
  ¬ NoDup (constraint_names str G (all_pairs_shortest_path_length G)) →
  build_model G = Raise PulpError.
Proof.
  intros Hrows Hnd. rewrite build_model_rows by done.
  destruct (add_rows_inv
              (constraints
                 (closed_model str G (all_pairs_shortest_path_length G)))
              (set_objective (var_expr (make_z (number_of_nodes G)))
                             (new_problem "PackingColoring" LpMinimize)))
    as [(_ & Hnd' & _)|(-> & _)]; [|done].
  by rewrite closed_model_names in Hnd'.
Qed.

Lemma build_model_row_missing (G : Graph V) (v u : V) :
  (v, u) ∈ combinations2 (nodes G) →
  all_pairs_shortest_path_length G !! v = None →
  ∃ e, build_model G = Raise e.
Proof.
  intros Hvu Hnone. unfold build_model.
  destruct (add_one_color _ _ _ _ _) as [m1|e]; simpl; [|by eexists].
  destruct (add_packing_fails G (all_pairs_shortest_path_length G)
              (make_x G (number_of_nodes G)) v u Hvu Hnone m1) as [e ->].
  by eexists.
Qed.

(** A model the builder returns is [closed_model], with the dict [x] and
    the variable [z] of lines 25 and 28. *)
Lemma build_model_Ok_inv (G : Graph V) x z m :
  build_model G = Ok (x, z, m) →
  x = make_x G (number_of_nodes G) ∧
  z = make_z (number_of_nodes G) ∧
  m = closed_model str G (all_pairs_shortest_path_length G).
Proof.
  intros Hb.
  destruct (rows_present_or_missing G (all_pairs_shortest_path_length G))
    as [Hrows|(v & u & Hvu & Hnone)].
  - rewrite build_model_rows in Hb by done.
    destruct (add_rows_inv
                (constraints
                   (closed_model str G (all_pairs_shortest_path_length G)))
                (set_objective (var_expr (make_z (number_of_nodes G)))
                               (new_problem "PackingColoring" LpMinimize)))
      as [(Hok & _)|(Hraise & _)].
    + rewrite Hok in Hb. by injection Hb as <- <- <-.
    + by rewrite Hraise in Hb.
  - destruct (build_model_row_missing G v u Hvu Hnone) as [e He]. congruence.
Qed.

(** C8: the color bound is the number of vertices.  The dict [x] of line 25
    has a key [(v, i)] exactly when [v] is a vertex and [1 <= i <= |V|],
    each bound to the binary variable named after [v] and [i], and the [z]
    of line 28 is an integer variable with bounds 1 and [|V|]; they are
    the [x] and [z] of every model the builder returns, and it returns one
    when the table covers the graph and the constraint names are
    distinct. *)
Theorem color_bound_is_number_of_vertices (G : Graph V) :
  let k := number_of_nodes G in
  k = length (nodes G) ∧
  (∀ v i, is_Some (make_x G k !! (v, i))
          ↔ v ∈ nodes G ∧ (1 ≤ i ≤ length (nodes G))%nat) ∧
  (∀ v i xv, make_x G k !! (v, i) = Some xv →
             xv = mkLpVariable (x_name str v i) None None LpBinary) ∧
  make_z k = mkLpVariable "z" (Some 1%Z) (Some (Z.of_nat (length (nodes G))))
                          LpInteger ∧
  (∀ x z m, build_model G = Ok (x, z, m) → x = make_x G k ∧ z = make_z k) ∧
  (covers G (all_pairs_shortest_path_length G) →
   NoDup (constraint_names str G (all_pairs_shortest_path_length G)) →
   ∃ m, build_model G = Ok (make_x G k, make_z k, m)).
Proof.
  intros k. split; [done|]. split; [|split; [|split; [done|split]]].
  - intros v i. rewrite lookup_make_x. unfold k, number_of_nodes.
    case_decide; split; done.
  - intros v i xv. rewrite lookup_make_x. case_decide; [|done].
    by intros [= <-].
  - intros x z m Hb. by destruct (build_model_Ok_inv G x z m Hb) as (-> & -> & _).
  - intros Hcov Hnd. eexists. by apply build_model_closed_form.
Qed.



Lemma elem_of_packing_rows (G : Graph V) (k : nat)
    (distances : gmap V (gmap V nat)) (nc : string * LpConstraint) :
  nc ∈ packing_rows str G k distances ↔
  ∃ i v u d, i ∈ range1 k ∧ (v, u) ∈ combinations2 (nodes G) ∧
    distance distances v u = Some d ∧ (d ≤ i)%nat ∧
    nc = (Pack_name str v u i, packing_constraint str v u i).
Proof.
  unfold packing_rows. rewrite list_elem_of_bind. split.
  - intros (i & Hin & Hi). apply list_elem_of_bind in Hin as ([v u] & Hin & Hvu).
    unfold packing_row in Hin. simpl in Hin.
    destruct (distance distances v u) as [d|] eqn:Hd;
      [|by apply elem_of_nil in Hin].
    case_decide; [|by apply elem_of_nil in Hin].
    apply list_elem_of_singleton in Hin. by exists i, v, u, d.
  - intros (i & v & u & d & Hi & Hvu & Hd & Hle & ->).
    exists i. split; [|done]. apply list_elem_of_bind. exists (v, u).
    split; [|done]. unfold packing_row. simpl.
    rewrite Hd, decide_True by done. by left.
Qed.


End builder.

(** ** Feasible solutions *)

Lemma Qlt_bool_true (a b : Q) : Qlt_bool a b = true ↔ (a < b)%Q.
Proof.
  unfold Qlt_bool. rewrite negb_true_iff, <- not_true_iff_false, Qle_bool_iff.
  split; [apply Qnot_le_lt|apply Qlt_not_le].
Qed.

Lemma Qlt_bool_false (a b : Q) : Qlt_bool a b = false ↔ (b <= a)%Q.
Proof. unfold Qlt_bool. by rewrite negb_false_iff, Qle_bool_iff. Qed.

Lemma is_integral_inject_Z (q : Q) :
  is_integral q = true → ∃ n : Z, (q == inject_Z n)%Q.
Proof.
  unfold is_integral. destruct q as [n d]. simpl. intros Hm%Z.eqb_eq.
  apply Z.mod_divide in Hm as [t Ht]; [|lia].
  exists t. unfold Qeq. simpl. lia.
Qed.

Lemma integral_small_is_zero (q : Q) :
  is_integral q = true → (0 <= q)%Q → (q <= 0.5)%Q → (q == 0)%Q.
Proof.
  unfold is_integral, Qle, Qeq. destruct q as [n d]. simpl.
  intros Hm%Z.eqb_eq H0 H1.
  apply Z.mod_divide in Hm as [t Ht]; [|lia].
  assert (-1 < t < 1)%Z by nia. assert (t = 0)%Z as -> by lia. lia.
Qed.

Lemma integral_large_is_one (q : Q) :
  is_integral q = true → (q <= 1)%Q → (0.5 < q)%Q → (q == 1)%Q.
Proof.
  unfold is_integral, Qle, Qlt, Qeq. destruct q as [n d]. simpl.
  intros Hm%Z.eqb_eq H0 H1.
  apply Z.mod_divide in Hm as [t Ht]; [|lia].
  assert (0 < t < 2)%Z by nia. assert (t = 1)%Z as -> by lia. lia.
Qed.

Lemma feasible_constraint (m : LpProblem) (sol : solution) n c :
  feasible m sol → (n, c) ∈ constraints m → satisfies sol c = true.
Proof.
  unfold feasible, feasibleb. intros [_ Hcs]%andb_prop Hin.
  rewrite forallb_forall in Hcs.
  by apply (Hcs (n, c)), list_elem_of_In.
Qed.

Lemma feasible_variable (m : LpProblem) (sol : solution) x :
  feasible m sol → x ∈ variables m →
  ∃ q, varValue sol x = Some q ∧ in_domain x q = true.
Proof.
  unfold feasible, feasibleb. intros [Hvs _]%andb_prop Hin.
  rewrite forallb_forall in Hvs.
  apply list_elem_of_In, Hvs in Hin. unfold has_domain_value in Hin.
  destruct (varValue sol x) as [q|]; [by exists q|done].
Qed.

Lemma objective_variable (m : LpProblem) e x :
  objective m = Some e → x ∈ expr_variables e → x ∈ variables m.
Proof.
  intros He Hx. unfold variables. rewrite He. apply elem_of_app. by left.
Qed.

Lemma constraint_lhs_variable (m : LpProblem) n c x :
  (n, c) ∈ constraints m → x ∈ expr_variables (lhs c) → x ∈ variables m.
Proof.
  intros Hc Hx. unfold variables. apply elem_of_app. right.
  apply list_elem_of_In, in_flat_map. exists (n, c).
  split; [by apply list_elem_of_In|].
  apply list_elem_of_In, elem_of_app. by left.
Qed.

(** A sum of variables that are all 0 is 0. *)
Lemma terms_value_zero (sol : solution) (xs : list LpVariable) :
  (∀ x, x ∈ xs → ∃ q, varValue sol x = Some q ∧ (q == 0)%Q) →
  ∃ r, terms_value sol (map (pair 1%Z) xs) = Some r ∧ (r == 0)%Q.
Proof.
  induction xs as [|x xs IH]; intros Hxs; simpl.
  - by exists 0%Q.
  - destruct (Hxs x) as (q & -> & Hq); [by left|].
    destruct IH as (r & -> & Hr); [intros; apply Hxs; by right|].
    eexists. split; [done|]. rewrite Hq, Hr. reflexivity.
Qed.

(** A sum of variables with values that are not negative is not negative,
    at least each of its summands, and at least any two of them together. *)
Lemma terms_value_nonneg (sol : solution) (f : nat → LpVariable) (n a : nat)
    (r : Q) :
  (∀ t, (a ≤ t < a + n)%nat →
        ∃ q, varValue sol (f t) = Some q ∧ (0 <= q)%Q) →
  terms_value sol (map (pair 1%Z) (map f (seq a n))) = Some r →
  (0 <= r)%Q.
Proof.
  revert a r. induction n as [|n IH]; intros a r Hpos; simpl.
  - intros [= <-]. lra.
  - destruct (Hpos a) as (qa & Hqa & Hqa0); [lia|]. rewrite Hqa.
    destruct (terms_value sol (map (pair 1%Z) (map f (seq (S a) n))))
      as [r'|] eqn:Hr'; [|done].
    intros [= <-]. unfold inject_Z.
    assert (0 <= r')%Q by (apply (IH (S a)); [intros; apply Hpos; lia|done]).
    lra.
Qed.

Lemma terms_value_ge_one (sol : solution) (f : nat → LpVariable) (n a i : nat)
    (qi r : Q) :
  (∀ t, (a ≤ t < a + n)%nat →
        ∃ q, varValue sol (f t) = Some q ∧ (0 <= q)%Q) →
  (a ≤ i < a + n)%nat →
  varValue sol (f i) = Some qi →
  terms_value sol (map (pair 1%Z) (map f (seq a n))) = Some r →
  (qi <= r)%Q.
Proof.
  revert a r. induction n as [|n IH]; intros a r Hpos Hi Hqi; [lia|].
  simpl. destruct (Hpos a) as (qa & Hqa & Hqa0); [lia|]. rewrite Hqa.
  destruct (terms_value sol (map (pair 1%Z) (map f (seq (S a) n))))
    as [r'|] eqn:Hr'; [|done].
  intros [= <-]. unfold inject_Z.
  destruct (decide (i = a)) as [->|Hne].
  - assert (qi = qa) as -> by congruence.
    assert (0 <= r')%Q
      by (apply (terms_value_nonneg sol f n (S a));
          [intros; apply Hpos; lia|done]).
    lra.
  - assert (qi <= r')%Q
      by (apply (IH (S a)); [intros; apply Hpos; lia|lia|done|done]).
    lra.
Qed.

Lemma terms_value_ge_two (sol : solution) (f : nat → LpVariable)
    (n a i j : nat) (qi qj r : Q) :
  (∀ t, (a ≤ t < a + n)%nat →
        ∃ q, varValue sol (f t) = Some q ∧ (0 <= q)%Q) →
  (a ≤ i)%nat → (i < j)%nat → (j < a + n)%nat →
  varValue sol (f i) = Some qi →
  varValue sol (f j) = Some qj →
  terms_value sol (map (pair 1%Z) (map f (seq a n))) = Some r →
  (qi + qj <= r)%Q.
Proof.
  revert a r. induction n as [|n IH]; intros a r Hpos Hai Hij Hj Hqi Hqj; [lia|].
  simpl. destruct (Hpos a) as (qa & Hqa & Hqa0); [lia|]. rewrite Hqa.
  destruct (terms_value sol (map (pair 1%Z) (map f (seq (S a) n))))
    as [r'|] eqn:Hr'; [|done].
  intros [= <-]. unfold inject_Z.
  destruct (decide (i = a)) as [->|Hne].
  - assert (qi = qa) as -> by congruence.
    assert (qj <= r')%Q
      by (apply (terms_value_ge_one sol f n (S a) j);
          [intros; apply Hpos; lia|lia|done|done]).
    lra.
  - assert (qi + qj <= r')%Q
      by (apply (IH (S a)); [intros; apply Hpos; lia|lia..|done|done|done]).
    lra.
Qed.

(** The value of a binary variable is 0 or 1. *)
Lemma binary_domain (x : LpVariable) (q : Q) :
  cat x = LpBinary → in_domain x q = true →
  is_integral q = true ∧ (0 <= q)%Q ∧ (q <= 1)%Q.
Proof.
  unfold in_domain. intros ->.
  rewrite !andb_true_iff, !Qle_bool_iff. tauto.
Qed.

(** The value of an integer variable with a lower bound is an integer at
    least that bound. *)
Lemma integer_domain (x : LpVariable) (q : Q) (lo : Z) :
  cat x = LpInteger → lowBound x = Some lo → in_domain x q = true →
  ∃ n : Z, (lo ≤ n)%Z ∧ (q == inject_Z n)%Q.
Proof.
  unfold in_domain. intros -> ->. simpl.
  rewrite !andb_true_iff, Qle_bool_iff. intros [[Hlo _] Hint].
  destruct (is_integral_inject_Z q Hint) as [n Hn]. exists n.
  split; [|done]. rewrite Hn in Hlo. by rewrite Zle_Qle.
Qed.

(** ** The decoder *)

(** The outer loop of the decoder, for any scan [fc] of a vertex. *)
Lemma for_colors_lookup `{Countable V} (fc : V → result (option nat)) (l : list V)
    (acc colors : gmap V nat) :
  for_ l (λ v (color_assignment : gmap V nat),
            c ← fc v;
            match c with
            | Some i => Ok (<[v := i]> color_assignment)
            | None => Ok color_assignment
            end) acc = Ok colors →
  ∀ v i, colors !! v = Some i ↔
         (v ∈ l ∧ fc v = Ok (Some i)) ∨
         (acc !! v = Some i ∧ (v ∉ l ∨ fc v = Ok None)).
Proof.
  revert acc. induction l as [|a l IH]; intros acc; simpl.
  - intros [= <-] v i. rewrite elem_of_nil. tauto.
  - destruct (fc a) as [[i0|]|e] eqn:Hfa; simpl; [..|done];
      intros Hfor v i; rewrite (IH _ Hfor v i), elem_of_cons.
    + destruct (decide (v = a)) as [->|Hne].
      * rewrite lookup_insert_eq, Hfa.
        destruct (decide (a ∈ l)); intuition congruence.
      * rewrite lookup_insert_ne by done.
        destruct (decide (v ∈ l)); intuition congruence.
    + destruct (decide (v = a)) as [->|Hne].
      * rewrite Hfa. destruct (decide (a ∈ l)); intuition congruence.
      * destruct (decide (v ∈ l)); intuition congruence.
Qed.

Lemma for_colors_total `{Countable V} (fc : V → result (option nat)) (l : list V)
    (acc : gmap V nat) :
  (∀ v, v ∈ l → ∃ r, fc v = Ok r) →
  ∃ colors,
    for_ l (λ v (color_assignment : gmap V nat),
              c ← fc v;
              match c with
              | Some i => Ok (<[v := i]> color_assignment)
              | None => Ok color_assignment
              end) acc = Ok colors.
Proof.
  revert acc. induction l as [|a l IH]; intros acc Hfc; simpl; [by eexists|].
  destruct (Hfc a) as [r ->]; [by left|]. simpl.
  destruct r; apply IH; intros; apply Hfc; by right.
Qed.

Section decoder.
Context `{Countable V}.
Variable str : V → string.

Local Abbreviation x_var := (x_var str).
Local Abbreviation make_x := (make_x str).

(** The scan of the colors [a, a + 1, ..., a + n - 1] of a vertex: it
    returns the first color whose variable is above 0.5 when all colors
    before it have a value that is not, and [None] when all colors have a
    value that is not; in every other case it raises. *)
Lemma first_color_seq (G : Graph V) (k : nat) (sol : solution) (v : V)
    (n a : nat) (r : option nat) :
  v ∈ nodes G → (1 ≤ a)%nat → (a + n ≤ k + 1)%nat →
  first_color sol (make_x G k) v (seq a n) = Ok r ↔
  match r with
  | Some i =>
      (a ≤ i < a + n)%nat ∧
      (∃ q, sol (x_name str v i) = Some q ∧ (0.5 < q)%Q) ∧
      ∀ j, (a ≤ j < i)%nat →
           ∃ q, sol (x_name str v j) = Some q ∧ (q <= 0.5)%Q
  | None =>
      ∀ j, (a ≤ j < a + n)%nat →
           ∃ q, sol (x_name str v j) = Some q ∧ (q <= 0.5)%Q
  end.
Proof.
  intros Hv. revert a. induction n as [|n IH]; intros a Ha Hn; simpl.
  - split.
    + intros [= <-]. intros j ?. lia.
    + destruct r as [i|]; [lia|done].
  - rewrite (getitem_make_x str) by (rewrite ?elem_of_range1; done || lia).
    simpl. unfold varValue. simpl.
    destruct (sol (x_name str v a)) as [q|] eqn:Hq.
    + destruct (Qlt_bool 0.5 q) eqn:Hlt.
      * apply Qlt_bool_true in Hlt. split.
        -- intros [= <-]. split; [lia|]. split; [by exists q|]. lia.
        -- destruct r as [i|].
           ++ intros (Hi & _ & Hbefore).
              destruct (decide (i = a)) as [->|Hne]; [done|].
              destruct (Hbefore a) as (q' & Hq' & Hle); [lia|].
              rewrite Hq in Hq'. injection Hq' as <-. lra.
           ++ intros Hall. destruct (Hall a) as (q' & Hq' & Hle); [lia|].
              rewrite Hq in Hq'. injection Hq' as <-. lra.
      * apply Qlt_bool_false in Hlt. rewrite IH by lia.
        destruct r as [i|].
        -- split.
           ++ intros (Hi & Habove & Hbefore). split; [lia|].
              split; [done|]. intros j Hj.
              destruct (decide (j = a)) as [->|Hne]; [by exists q|].
              apply Hbefore. lia.
           ++ intros (Hi & Habove & Hbefore).
              assert (i ≠ a) as Hne.
              { intros ->. destruct Habove as (q' & Hq' & Hgt).
                rewrite Hq in Hq'. injection Hq' as <-. lra. }
              split; [lia|]. split; [done|]. intros j Hj.
              apply Hbefore. lia.
        -- split.
           ++ intros Hall j Hj.
              destruct (decide (j = a)) as [->|Hne]; [by exists q|].
              apply Hall. lia.
           ++ intros Hall j Hj. apply Hall. lia.
    + split; [done|]. destruct r as [i|].
      * intros (Hi & Habove & Hbefore).
        destruct (decide (i = a)) as [->|Hne].
        -- destruct Habove as (q' & Hq' & _). congruence.
        -- destruct (Hbefore a) as (q' & Hq' & _); [lia|]. congruence.
      * intros Hall. destruct (Hall a) as (q' & Hq' & _); [lia|]. congruence.
Qed.

Lemma first_color_Some (G : Graph V) (k : nat) (sol : solution) (v : V)
    (i : nat) :
  v ∈ nodes G →
  first_color sol (make_x G k) v (range1 k) = Ok (Some i)
  ↔ first_above str sol k v i.
Proof.
  intros Hv. unfold range1, first_above.
  rewrite (first_color_seq G k sol v k 1 (Some i)) by (done || lia).
  assert ((1 ≤ i < 1 + k)%nat ↔ (1 ≤ i ≤ k)%nat) as -> by lia. done.
Qed.

Lemma first_color_None (G : Graph V) (k : nat) (sol : solution) (v : V) :
  v ∈ nodes G →
  first_color sol (make_x G k) v (range1 k) = Ok None
  ↔ ∀ j, (1 ≤ j ≤ k)%nat →
         ∃ q, sol (x_name str v j) = Some q ∧ (q <= 0.5)%Q.
Proof.
  intros Hv. unfold range1.
  rewrite (first_color_seq G k sol v k 1 None) by (done || lia).
  split; intros Hall j Hj; apply Hall; lia.
Qed.

(** The scan raises nothing when every variable it can reach has a
    value. *)
Lemma first_color_seq_total (G : Graph V) (k : nat) (sol : solution) (v : V)
    (n a : nat) :
  v ∈ nodes G → (1 ≤ a)%nat → (a + n ≤ k + 1)%nat →
  (∀ j, (a ≤ j < a + n)%nat → is_Some (sol (x_name str v j))) →
  ∃ r, first_color sol (make_x G k) v (seq a n) = Ok r.
Proof.
  intros Hv. revert a.
  induction n as [|n IH]; intros a Ha Hn Hval; simpl; [by eexists|].
  rewrite (getitem_make_x str) by (rewrite ?elem_of_range1; done || lia).
  simpl. unfold varValue. simpl.
  destruct (Hval a) as [q ->]; [lia|].
  destruct (Qlt_bool 0.5 q); [by eexists|].
  apply IH; [lia..|]. intros j Hj. apply Hval. lia.
Qed.

Lemma first_color_total (G : Graph V) (k : nat) (sol : solution) (v : V) :
  v ∈ nodes G →
  (∀ j, (1 ≤ j ≤ k)%nat → is_Some (sol (x_name str v j))) →
  ∃ r, first_color sol (make_x G k) v (range1 k) = Ok r.
Proof.
  intros Hv Hval. apply first_color_seq_total; [done|lia..|].
  intros j Hj. apply Hval. lia.
Qed.

(** The decoded mapping binds a vertex to its first color above 0.5 and
    binds nothing else. *)
Lemma extract_colors_lookup (G : Graph V) (k : nat) (sol : solution)
    (colors : gmap V nat) :
  extract_colors G k sol (make_x G k) = Ok colors →
  ∀ v i, colors !! v = Some i ↔ v ∈ nodes G ∧ first_above str sol k v i.
Proof.
  intros Hex v i. unfold extract_colors in Hex.
  rewrite (for_colors_lookup
             (λ v, first_color sol (make_x G k) v (range1 k)) _ _ _ Hex v i).
  rewrite lookup_empty. split.
  - intros [[Hv Hfc]|[[=] _]]. split; [done|]. by apply (first_color_Some G).
  - intros [Hv Hfa]. left. split; [done|]. by apply first_color_Some.
Qed.

Lemma extract_colors_total (G : Graph V) (k : nat) (sol : solution) :
  (∀ v j, v ∈ nodes G → (1 ≤ j ≤ k)%nat →
          is_Some (sol (x_name str v j))) →
  ∃ colors, extract_colors G k sol (make_x G k) = Ok colors.
Proof.
  intros Hval. unfold extract_colors.
  apply (for_colors_total
           (λ v, first_color sol (make_x G k) v (range1 k))).
  intros v Hv. apply first_color_total; [done|]. intros j Hj. by apply Hval.
Qed.

(** Two solutions that agree on what the scan reads decode alike. *)
Lemma first_above_agree (sol sol' : solution) (k : nat) (v : V) (i : nat) :
  (∀ j, (1 ≤ j ≤ i)%nat → sol' (x_name str v j) = sol (x_name str v j)) →
  first_above str sol k v i → first_above str sol' k v i.
Proof.
  intros Hagree (Hi & Habove & Hbefore). split; [done|]. split.
  - rewrite Hagree by lia. done.
  - intros j Hj. rewrite Hagree by lia. by apply Hbefore.
Qed.

End decoder.

(** ** Feasible solutions of the packing coloring model *)

Section model_solutions.
Context `{Countable V}.
Variable str : V → string.

Local Abbreviation x_var := (x_var str).

Lemma one_color_row_in (G : Graph V) (D : gmap V (gmap V nat)) (v : V) :
  v ∈ nodes G →
  (OneColor_name str v, one_color_constraint str (number_of_nodes G) v)
  ∈ constraints (closed_model str G D).
Proof.
  intros Hv. simpl. apply elem_of_app. left. unfold one_color_rows.
  by apply (list_elem_of_fmap_2
              (λ v, (OneColor_name str v, one_color_constraint str _ v))).
Qed.

(** In a feasible solution every [x] variable has the value 0 or 1. *)
Lemma feasible_x_value (G : Graph V) (D : gmap V (gmap V nat))
    (sol : solution) (v : V) (i : nat) :
  feasible (closed_model str G D) sol →
  v ∈ nodes G → (1 ≤ i ≤ number_of_nodes G)%nat →
  ∃ q, sol (x_name str v i) = Some q ∧
       is_integral q = true ∧ (0 <= q)%Q ∧ (q <= 1)%Q.
Proof.
  intros Hfeas Hv Hi.
  destruct (feasible_variable _ _ (x_var v i) Hfeas) as (q & Hq & Hdom).
  - eapply constraint_lhs_variable; [by apply one_color_row_in|].
    simpl. rewrite lpSum_terms. unfold expr_variables. simpl.
    rewrite map_map. simpl. rewrite map_id.
    apply list_elem_of_fmap_2. by apply elem_of_range1.
  - exists q. split; [done|]. by apply (binary_domain (x_var v i)).
Qed.

(** In a feasible solution [z] has an integer value at least 1. *)
Lemma feasible_z_value (G : Graph V) (D : gmap V (gmap V nat))
    (sol : solution) :
  feasible (closed_model str G D) sol →
  ∃ q n, sol "z" = Some q ∧ (1 ≤ n)%Z ∧ (q == inject_Z n)%Q.
Proof.
  intros Hfeas.
  destruct (feasible_variable _ _ (make_z (number_of_nodes G)) Hfeas)
    as (q & Hq & Hdom).
  - eapply objective_variable; [done|]. by left.
  - destruct (integer_domain (make_z (number_of_nodes G)) q 1 eq_refl eq_refl
                Hdom) as (n & Hn & Hqn).
    by exists q, n.
Qed.

(** In a feasible solution some color of every vertex is above 0.5. *)
Lemma feasible_first_above (G : Graph V) (D : gmap V (gmap V nat))
    (sol : solution) (v : V) :
  feasible (closed_model str G D) sol → v ∈ nodes G →
  ∃ i, first_above str sol (number_of_nodes G) v i.
Proof.
  intros Hfeas Hv. set (k := number_of_nodes G).
  destruct (first_color_total str G k sol v Hv) as [[i|] Hr].
  - intros j Hj.
    destruct (feasible_x_value G D sol v j Hfeas Hv Hj) as (q & -> & _).
    by eexists.
  - exists i. by apply (first_color_Some str G).
  - exfalso. rewrite (first_color_None str G) in Hr by done.
    pose proof (feasible_constraint _ _ _ _ Hfeas (one_color_row_in G D v Hv))
      as Hsat.
    unfold satisfies, expr_value in Hsat. simpl in Hsat.
    rewrite lpSum_terms in Hsat. simpl in Hsat.
    destruct (terms_value_zero sol (map (x_var v) (range1 k)))
      as (r & Hr0 & Hzero).
    { intros x (j & -> & Hj%elem_of_range1)%list_elem_of_fmap.
      destruct (Hr j Hj) as (q & Hq & Hle).
      destruct (feasible_x_value G D sol v j Hfeas Hv Hj)
        as (q' & Hq' & Hint & Hpos & _).
      rewrite Hq in Hq'. injection Hq' as <-.
      exists q. split; [done|]. by apply integral_small_is_zero. }
    fold k in Hsat. rewrite Hr0 in Hsat.
    apply Qeq_bool_iff in Hsat. rewrite Hzero in Hsat.
    unfold inject_Z in Hsat. lra.
Qed.

(** In a feasible solution at most one color of a vertex is above 0.5. *)
Lemma feasible_above_unique (G : Graph V) (D : gmap V (gmap V nat))
    (sol : solution) (v : V) (i j : nat) :
  feasible (closed_model str G D) sol → v ∈ nodes G →
  (1 ≤ i ≤ number_of_nodes G)%nat → (1 ≤ j ≤ number_of_nodes G)%nat →
  (∃ q, sol (x_name str v i) = Some q ∧ (0.5 < q)%Q) →
  (∃ q, sol (x_name str v j) = Some q ∧ (0.5 < q)%Q) →
  i = j.
Proof.
  intros Hfeas Hv. set (k := number_of_nodes G).
  enough (∀ i j, (1 ≤ i)%nat → (i < j)%nat → (j ≤ k)%nat →
            (∃ q, sol (x_name str v i) = Some q ∧ (0.5 < q)%Q) →
            (∃ q, sol (x_name str v j) = Some q ∧ (0.5 < q)%Q) → False)
    as Hlt.
  { intros Hi Hj Habove_i Habove_j.
    destruct (lt_eq_lt_dec i j) as [[Hij|Heq]|Hji]; [exfalso|done|exfalso].
    - apply (Hlt i j); (done || lia).
    - apply (Hlt j i); (done || lia). }
  clear i j. intros i j Hi Hij Hj (qi & Hqi & Hgi) (qj & Hqj & Hgj).
  pose proof (feasible_constraint _ _ _ _ Hfeas (one_color_row_in G D v Hv))
    as Hsat.
  unfold satisfies, expr_value in Hsat. simpl in Hsat.
  rewrite lpSum_terms in Hsat. simpl in Hsat. fold k in Hsat.
  unfold range1 in Hsat.
  destruct (terms_value sol (map (pair 1%Z) (map (x_var v) (seq 1 k))))
    as [r|] eqn:Hr; [|done].
  apply Qeq_bool_iff in Hsat.
  destruct (feasible_x_value G D sol v i Hfeas Hv) as (q & Hq & Hint & _ & Hle);
    [fold k; lia|].
  rewrite Hqi in Hq. injection Hq as <-.
  pose proof (integral_large_is_one qi Hint Hle Hgi) as Hone_i.
  destruct (feasible_x_value G D sol v j Hfeas Hv) as (q & Hq & Hint' & _ & Hle');
    [fold k; lia|].
  rewrite Hqj in Hq. injection Hq as <-.
  pose proof (integral_large_is_one qj Hint' Hle' Hgj) as Hone_j.
  assert (qi + qj <= r)%Q as Hsum.
  { apply (terms_value_ge_two sol (x_var v) k 1 i j); [|lia..|done|done|done].
    intros t Ht.
    destruct (feasible_x_value G D sol v t Hfeas Hv) as (q & Hq & _ & Hq0 & _);
      [fold k; lia|].
    by exists q. }
  unfold inject_Z in Hsat. lra.
Qed.

(** Two colors of a vertex above 0.5 cannot both be present when the pair
    has a packing constraint for the color. *)
Lemma packing_row_excludes (m : LpProblem) (sol : solution) n (v u : V)
    (i : nat) :
  feasible m sol →
  (n, packing_constraint str v u i) ∈ constraints m →
  (∃ q, sol (x_name str v i) = Some q ∧ (0.5 < q)%Q) →
  (∃ q, sol (x_name str u i) = Some q ∧ (0.5 < q)%Q) →
  False.
Proof.
  intros Hfeas Hin (qv & Hqv & Hv) (qu & Hqu & Hu).
  pose proof (feasible_constraint _ _ _ _ Hfeas Hin) as Hsat.
  unfold satisfies, expr_value, varValue in Hsat. simpl in Hsat.
  unfold varValue in Hsat. simpl in Hsat.
  rewrite Hqv, Hqu in Hsat. apply Qle_bool_iff in Hsat.
  unfold inject_Z in Hsat. change (0 + 0)%Z with 0%Z in Hsat. lra.
Qed.

End model_solutions.

(** ** The solver driver *)

Section driver.
Context `{Countable V}.
Variable str : V → string.
Variable all_pairs_shortest_path_length : Graph V → gmap V (gmap V nat).
Variable solve : LpProblem → LpStatus * solution.

Lemma solve_packing_coloring_unfold (G : Graph V) x z m :
  build_model str all_pairs_shortest_path_length G = Ok (x, z, m) →
  solve_packing_coloring str all_pairs_shortest_path_length solve G
  = if decide ((solve m).1 = LpStatusOptimal) then
      color_assignment ←
        extract_colors G (number_of_nodes G) (solve m).2 x;
      Ok (Some color_assignment, varValue (solve m).2 z)
    else Ok (None, None).
Proof.
  intros Hb. unfold solve_packing_coloring. rewrite Hb. simpl.
  by destruct (solve m) as [status sol].
Qed.

Local Abbreviation build_model :=
  (build_model str all_pairs_shortest_path_length).
Local Abbreviation solve_packing_coloring :=
  (solve_packing_coloring str all_pairs_shortest_path_length solve).

Lemma build_model_inv (G : Graph V) x z m :
  covers G (all_pairs_shortest_path_length G) →
  build_model G = Ok (x, z, m) →
  x = make_x str G (number_of_nodes G) ∧
  z = make_z (number_of_nodes G) ∧
  m = closed_model str G (all_pairs_shortest_path_length G).
Proof.
  intros _ Hb. by apply build_model_Ok_inv.
Qed.

Lemma solve_packing_coloring_optimal (G : Graph V) x z m sol :
  build_model G = Ok (x, z, m) →
  solve m = (LpStatusOptimal, sol) →
  solve_packing_coloring G
  = (color_assignment ← extract_colors G (number_of_nodes G) sol x;
     Ok (Some color_assignment, varValue sol z)).
Proof.
  intros Hb Hs. rewrite (solve_packing_coloring_unfold G x z m Hb), Hs.
  done.
Qed.

(** With an optimal status and a value for every [x] variable, the
    function returns the decoded mapping and the value of [z]. *)
Lemma optimal_decoding (G : Graph V) x z m sol :
  covers G (all_pairs_shortest_path_length G) →
  build_model G = Ok (x, z, m) →
  solve m = (LpStatusOptimal, sol) →
  (∀ v j, v ∈ nodes G → (1 ≤ j ≤ number_of_nodes G)%nat →
          is_Some (sol (x_name str v j))) →
  ∃ colors,
    extract_colors G (number_of_nodes G) sol x = Ok colors ∧
    solve_packing_coloring G = Ok (Some colors, sol "z") ∧
    ∀ v i, colors !! v = Some i
           ↔ v ∈ nodes G ∧ first_above str sol (number_of_nodes G) v i.
Proof.
  intros Hcov Hb Hs Hval.
  rewrite (solve_packing_coloring_optimal G x z m sol Hb Hs).
  destruct (build_model_inv G x z m Hcov Hb) as (-> & -> & ->).
  destruct (extract_colors_total str G _ sol Hval) as [colors Hex].
  exists colors. rewrite Hex. do 2 (split; [done|]).
  by apply extract_colors_lookup.
Qed.

Lemma feasible_decoding (G : Graph V) x z m sol :
  covers G (all_pairs_shortest_path_length G) →
  build_model G = Ok (x, z, m) →
  solve m = (LpStatusOptimal, sol) →
  feasible m sol →
  ∃ colors,
    solve_packing_coloring G = Ok (Some colors, sol "z") ∧
    ∀ v i, colors !! v = Some i
           ↔ v ∈ nodes G ∧ first_above str sol (number_of_nodes G) v i.
Proof.
  intros Hcov Hb Hs Hfeas.
  destruct (optimal_decoding G x z m sol Hcov Hb Hs)
    as (colors & _ & Hret & Hlook); [|by exists colors].
  destruct (build_model_inv G x z m Hcov Hb) as (-> & -> & ->).
  intros v j Hv Hj.
  destruct (feasible_x_value str G _ sol v j Hfeas Hv Hj) as (q & -> & _).
  by eexists.
Qed.

(** C7: when the status the solver reports is not optimal, the function
    returns [None, None]: no mapping, no value. *)
Theorem not_optimal_returns_none (G : Graph V) x z m :
  build_model G = Ok (x, z, m) →
  (solve m).1 ≠ LpStatusOptimal →
  solve_packing_coloring G = Ok (None, None).
Proof.
  intros Hb Hs. rewrite (solve_packing_coloring_unfold G x z m Hb).
  by rewrite decide_False.
Qed.

(** C5: when the status is optimal and the [x] variables have values, the
    function returns a mapping that binds a vertex [v] to [i] exactly when
    [i] is the first color of [1..k] whose variable [x(v,i)] is above
    0.5; and the decoding reads nothing after that color: values that
    differ (or are missing) only after the first color of each vertex
    decode to the same mapping. *)
Theorem decoding_takes_first_color_above_half (G : Graph V) x z m sol :
  covers G (all_pairs_shortest_path_length G) →
  build_model G = Ok (x, z, m) →
  solve m = (LpStatusOptimal, sol) →
  (∀ v j, v ∈ nodes G → (1 ≤ j ≤ number_of_nodes G)%nat →
          is_Some (sol (x_name str v j))) →
  ∃ colors,
    solve_packing_coloring G = Ok (Some colors, sol "z") ∧
    (∀ v i, colors !! v = Some i
            ↔ v ∈ nodes G ∧ first_above str sol (number_of_nodes G) v i) ∧
    ∀ sol' : solution,
      (∀ v i j, colors !! v = Some i → (1 ≤ j ≤ i)%nat →
                sol' (x_name str v j) = sol (x_name str v j)) →
      (∀ v j, v ∈ nodes G → colors !! v = None →
              sol' (x_name str v j) = sol (x_name str v j)) →
      extract_colors G (number_of_nodes G) sol' x = Ok colors.
Proof.
  intros Hcov Hb Hs Hval.
  destruct (optimal_decoding G x z m sol Hcov Hb Hs Hval)
    as (colors & Hex & Hret & Hlook).
  exists colors. do 2 (split; [done|]).
  destruct (build_model_inv G x z m Hcov Hb) as (-> & -> & ->).
  set (k := number_of_nodes G) in *.
  intros sol' Hsame Hnone.
  assert (∀ v, v ∈ nodes G →
            first_color sol' (make_x str G k) v (range1 k)
            = Ok (colors !! v)) as Hfc.
  { intros v Hv. destruct (colors !! v) as [i|] eqn:Hc.
    - apply (first_color_Some str G); [done|].
      apply (first_above_agree str sol); [intros j Hj; by eapply Hsame|].
      by apply Hlook.
    - apply (first_color_None str G); [done|]. intros j Hj.
      rewrite Hnone by done.
      destruct (first_color_total str G k sol v Hv) as [[i|] Hr];
        [by intros; apply Hval| |].
      + apply (first_color_Some str G) in Hr; [|done].
        assert (colors !! v = Some i) by by apply Hlook. congruence.
      + rewrite (first_color_None str G) in Hr by done. by apply Hr. }
  destruct (for_colors_total
              (λ v, first_color sol' (make_x str G k) v (range1 k))
              (nodes G) ∅) as [colors' Hex'].
  { intros v Hv. rewrite Hfc by done. by eexists. }
  unfold extract_colors. rewrite Hex'. f_equal.
  apply map_eq. intros v. apply option_eq. intros i.
  rewrite (for_colors_lookup _ _ _ _ Hex' v i), lookup_empty.
  split.
  - intros [[Hv Hr]|[[=] _]]. rewrite Hfc in Hr by done. congruence.
  - intros Hc. left. assert (v ∈ nodes G) as Hv by by apply Hlook in Hc as [? _].
    split; [done|]. rewrite Hfc by done. by rewrite Hc.
Qed.

(** C6: when the status is optimal and the values are a feasible solution
    of the model, the function returns a mapping whose keys are exactly the
    vertices of the graph, each with one color of [1..k]; and that color is
    the only one of the vertex whose variable is above 0.5. *)
Theorem every_vertex_gets_one_color (G : Graph V) x z m sol :
  covers G (all_pairs_shortest_path_length G) →
  build_model G = Ok (x, z, m) →
  solve m = (LpStatusOptimal, sol) →
  feasible m sol →
  ∃ colors,
    solve_packing_coloring G = Ok (Some colors, sol "z") ∧
    (∀ v, v ∈ nodes G ↔ is_Some (colors !! v)) ∧
    ∀ v, v ∈ nodes G →
      ∃ i, colors !! v = Some i ∧ (1 ≤ i ≤ number_of_nodes G)%nat ∧
           (∀ j, colors !! v = Some j → j = i) ∧
           ∀ j, (1 ≤ j ≤ number_of_nodes G)%nat →
                (∃ q, sol (x_name str v j) = Some q ∧ (0.5 < q)%Q) → j = i.
Proof.
  intros Hcov Hb Hs Hfeas.
  destruct (feasible_decoding G x z m sol Hcov Hb Hs Hfeas)
    as (colors & Hret & Hlook).
  exists colors. split; [done|].
  destruct (build_model_inv G x z m Hcov Hb) as (-> & -> & ->).
  set (k := number_of_nodes G) in *.
  assert (∀ v, v ∈ nodes G →
            ∃ i, colors !! v = Some i ∧ (1 ≤ i ≤ k)%nat) as Hsome.
  { intros v Hv.
    destruct (feasible_first_above str G _ sol v Hfeas Hv) as [i Hi].
    exists i. split; [by apply Hlook|]. by destruct Hi. }
  split.
  - intros v. split.
    + intros Hv. destruct (Hsome v Hv) as (i & -> & _). by eexists.
    + intros [i Hi]. by apply Hlook in Hi as [Hv _].
  - intros v Hv. destruct (Hsome v Hv) as (i & Hi & Hrange).
    exists i. do 2 (split; [done|]). split; [intros j Hj; congruence|].
    intros j Hj Habove. apply Hlook in Hi as (_ & _ & Habove_i & _).
    by apply (feasible_above_unique str G _ sol v j i Hfeas Hv).
Qed.

(** C1: when the status is optimal and the values are a feasible solution
    of the model, two distinct vertices with the same color [i] in the
    returned mapping and at a finite distance [d] have [d > i]. *)
Theorem packing_property (G : Graph V) x z m sol colors z_val v u i d :
  covers G (all_pairs_shortest_path_length G) →
  symmetric G (all_pairs_shortest_path_length G) →
  build_model G = Ok (x, z, m) →
  solve m = (LpStatusOptimal, sol) →
  feasible m sol →
  solve_packing_coloring G = Ok (Some colors, z_val) →
  v ≠ u →
  colors !! v = Some i →
  colors !! u = Some i →
  distance (all_pairs_shortest_path_length G) v u = Some d →
  (i < d)%nat.
Proof.
  intros Hcov Hsym Hb Hs Hfeas Hret Hne Hv Hu Hd.
  destruct (feasible_decoding G x z m sol Hcov Hb Hs Hfeas)
    as (colors' & Hret' & Hlook).
  rewrite Hret' in Hret. injection Hret as -> _.
  destruct (build_model_inv G x z m Hcov Hb) as (-> & -> & ->).
  set (k := number_of_nodes G) in *.
  apply Hlook in Hv as (Hv & Hvi & Hvabove & _).
  apply Hlook in Hu as (Hu & _ & Huabove & _).
  destruct (decide (d ≤ i)%nat) as [Hle|]; [exfalso|lia].
  destruct (elem_of_combinations2 _ _ _ Hv Hu Hne) as [Hvu|Huv].
  - apply (packing_row_excludes str _ sol (Pack_name str v u i) v u i Hfeas);
      [|done..].
    simpl. rewrite !elem_of_app. right. left.
    apply elem_of_packing_rows. exists i, v, u, d.
    by rewrite elem_of_range1.
  - apply (packing_row_excludes str _ sol (Pack_name str u v i) u v i Hfeas);
      [|done..].
    simpl. rewrite !elem_of_app. right. left.
    apply elem_of_packing_rows. exists i, u, v, d.
    by rewrite elem_of_range1, <- (Hsym v u).
Qed.

(** C9: when the status is optimal and the values are a feasible solution
    of the model, the second value returned is an integer at least 1 and
    every color of the returned mapping is at least 1. *)
Theorem returned_values_are_positive_integers (G : Graph V) x z m sol :
  covers G (all_pairs_shortest_path_length G) →
  build_model G = Ok (x, z, m) →
  solve m = (LpStatusOptimal, sol) →
  feasible m sol →
  ∃ colors z_val,
    solve_packing_coloring G = Ok (Some colors, Some z_val) ∧
    (∃ n : Z, (1 ≤ n)%Z ∧ (z_val == inject_Z n)%Q) ∧
    ∀ v i, colors !! v = Some i → (1 ≤ i)%nat.
Proof.
  intros Hcov Hb Hs Hfeas.
  destruct (feasible_decoding G x z m sol Hcov Hb Hs Hfeas)
    as (colors & Hret & Hlook).
  destruct (build_model_inv G x z m Hcov Hb) as (-> & -> & ->).
  destruct (feasible_z_value str G _ sol Hfeas) as (q & n & Hq & Hn & Hqn).
  exists colors, q. rewrite Hret, Hq. split; [done|].
  split; [by exists n|].
  intros v i Hc. apply Hlook in Hc as (_ & Hi & _). lia.
Qed.

(** C10: for a graph without vertices the dict [x] is empty, [z] has the
    lower bound 1 and the upper bound 0, the model has no constraint and no
    feasible solution, and with a solver that reports an optimal status only
    for a feasible solution the function returns [None, None]. *)
Theorem empty_graph_returns_none (G : Graph V) :
  nodes G = [] →
  (∀ m, (solve m).1 = LpStatusOptimal → feasible m (solve m).2) →
  ∃ z m,
    build_model G = Ok (∅, z, m) ∧
    lowBound z = Some 1%Z ∧ upBound z = Some 0%Z ∧
    objective m = Some (var_expr z) ∧ constraints m = [] ∧
    (∀ sol, ¬ feasible m sol) ∧
    solve_packing_coloring G = Ok (None, None).
Proof.
  intros Hnodes Hsound.
  assert (covers G (all_pairs_shortest_path_length G)) as Hcov.
  { intros v. rewrite Hnodes. by intros ?%elem_of_nil. }
  assert (number_of_nodes G = 0%nat) as Hk
    by (unfold number_of_nodes; by rewrite Hnodes).
  assert (NoDup (constraint_names str G (all_pairs_shortest_path_length G)))
    as Hnd.
  { unfold constraint_names. rewrite Hk, Hnodes. simpl. constructor. }
  pose proof (build_model_closed_form str _ G Hcov Hnd) as Hb.
  unfold closed_model, one_color_rows, packing_rows, max_color_rows,
    make_x in Hb.
  rewrite Hk, Hnodes in Hb. simpl in Hb.
  eexists _, _. split; [exact Hb|]. do 4 (split; [done|]).
  assert (∀ sol, ¬ feasible
            {| problem_name := "PackingColoring";
               problem_sense := LpMinimize;
               objective := Some (var_expr (make_z 0));
               constraints := [] |} sol) as Hinf.
  { intros sol Hfeas.
    destruct (feasible_variable _ sol (make_z 0) Hfeas) as (q & _ & Hdom).
    - eapply objective_variable; [done|]. by left.
    - unfold in_domain in Hdom. simpl in Hdom.
      rewrite !andb_true_iff, !Qle_bool_iff in Hdom.
      destruct Hdom as [[Hlo Hup] _].
      change (Z.of_nat 0) with 0%Z in Hup. unfold inject_Z in *. lra. }
  split; [done|].
  rewrite (solve_packing_coloring_unfold G _ _ _ Hb).
  rewrite decide_False; [done|].
  intros Hopt. by apply (Hinf _ (Hsound _ Hopt)).
Qed.

End driver.

(** ** The program on the path 1 - 2 - 3 and on the empty graph *)

Lemma P3_covered : covers P3 (bfs_distances P3).
Proof. apply (bool_decide_unpack _). vm_compute. exact I. Defined.

Lemma P3_symmetric : symmetric P3 (bfs_distances P3).
Proof. apply (bool_decide_unpack _). vm_compute. exact I. Defined.

Lemma P3_built :
  build_model pretty bfs_distances P3
  = Ok (make_x pretty P3 3, make_z 3,
        closed_model pretty P3 (bfs_distances P3)).
Proof. vm_compute. reflexivity. Defined.

Lemma P3_solved :
  checking_solver P3_values (closed_model pretty P3 (bfs_distances P3))
  = (LpStatusOptimal, P3_values).
Proof. vm_compute. reflexivity. Defined.

Lemma P3_feasible :
  feasible (closed_model pretty P3 (bfs_distances P3)) P3_values.
Proof. vm_compute. reflexivity. Defined.

Lemma P3_valued (v : nat) (j : nat) :
  v ∈ nodes P3 → (1 ≤ j ≤ number_of_nodes P3)%nat →
  is_Some (P3_values (x_name pretty v j)).
Proof.
  intros Hv Hj. apply list_elem_of_In in Hv. simpl in Hv.
  assert (j = 1 ∨ j = 2 ∨ j = 3)%nat as Hj'
    by (unfold number_of_nodes in Hj; simpl in Hj; lia).
  destruct Hv as [<- | [<- | [<- | Hv]]]; [..|done];
    destruct Hj' as [-> | [-> | ->]];
    vm_compute; by eexists.
Defined.

Lemma packing_property_witness :
  solve_packing_coloring pretty bfs_distances (checking_solver P3_values) P3
  = Ok (Some P3_colors, Some 2%Q) ∧
  distance (bfs_distances P3) 1%nat 3%nat = Some 2%nat ∧
  (1 < 2)%nat.
Proof.
  assert (solve_packing_coloring pretty bfs_distances
            (checking_solver P3_values) P3
          = Ok (Some P3_colors, Some 2%Q)) as Hret
    by (vm_compute; reflexivity).
  assert (distance (bfs_distances P3) 1%nat 3%nat = Some 2%nat) as Hd
    by (vm_compute; reflexivity).
  do 2 (split; [done|]).
  apply (packing_property pretty bfs_distances (checking_solver P3_values) P3
           _ _ _ P3_values P3_colors (Some 2%Q) 1%nat 3%nat 1%nat 2%nat
           P3_covered P3_symmetric P3_built P3_solved P3_feasible Hret);
    [lia|vm_compute; reflexivity..|exact Hd].
Defined.

Lemma P3_constraint_names_distinct :
  NoDup (constraint_names pretty P3 (bfs_distances P3)).
Proof. apply (bool_decide_unpack _). vm_compute. exact I. Defined.




Lemma decoding_takes_first_color_above_half_witness :
  ∃ colors,
    solve_packing_coloring pretty bfs_distances (checking_solver P3_values) P3
    = Ok (Some colors, Some 2%Q) ∧
    (colors !! 2%nat = Some 2%nat
     ↔ 2%nat ∈ nodes P3 ∧ first_above pretty P3_values 3 2%nat 2%nat).
Proof.
  destruct (decoding_takes_first_color_above_half pretty bfs_distances
              (checking_solver P3_values) P3 _ _ _ P3_values
              P3_covered P3_built P3_solved P3_valued)
    as (colors & Hret & Hlook & _).
  exists colors. split; [exact Hret|]. apply Hlook.
Defined.

Lemma every_vertex_gets_one_color_witness :
  ∃ colors,
    solve_packing_coloring pretty bfs_distances (checking_solver P3_values) P3
    = Ok (Some colors, Some 2%Q) ∧
    is_Some (colors !! 3%nat).
Proof.
  destruct (every_vertex_gets_one_color pretty bfs_distances
              (checking_solver P3_values) P3 _ _ _ P3_values
              P3_covered P3_built P3_solved P3_feasible)
    as (colors & Hret & Hdom & _).
  exists colors. split; [exact Hret|].
  apply Hdom. vm_compute. by do 2 right; left.
Defined.

Lemma not_optimal_returns_none_witness :
  solve_packing_coloring pretty bfs_distances (checking_solver (values [])) P3
  = Ok (None, None).
Proof.
  apply (not_optimal_returns_none pretty bfs_distances
           (checking_solver (values [])) P3 _ _ _ P3_built).
  vm_compute. discriminate.
Defined.

Lemma color_bound_is_number_of_vertices_witness :
  ∃ m,
    build_model pretty bfs_distances P3
    = Ok (make_x pretty P3 3, make_z 3, m) ∧
    is_Some (make_x pretty P3 3 !! (3%nat, 3%nat)) ∧
    upBound (make_z 3) = Some 3%Z.
Proof.
  destruct (color_bound_is_number_of_vertices pretty bfs_distances P3)
    as (_ & Hkeys & _ & Hz & _ & Hok).
  destruct (Hok P3_covered P3_constraint_names_distinct) as [m Hb].
  exists m. split; [exact Hb|]. split.
  - apply Hkeys. split; [vm_compute; by do 2 right; left|simpl; lia].
  - change (number_of_nodes P3) with 3%nat in Hz. by rewrite Hz.
Defined.

Lemma returned_values_are_positive_integers_witness :
  ∃ colors z_val,
    solve_packing_coloring pretty bfs_distances (checking_solver P3_values) P3
    = Ok (Some colors, Some z_val) ∧
    ∃ n : Z, (1 ≤ n)%Z ∧ (z_val == inject_Z n)%Q.
Proof.
  destruct (returned_values_are_positive_integers pretty bfs_distances
              (checking_solver P3_values) P3 _ _ _ P3_values
              P3_covered P3_built P3_solved P3_feasible)
    as (colors & z_val & Hret & Hz & _).
  exists colors, z_val. exact (conj Hret Hz).
Defined.

Lemma checking_solver_sound (candidate : solution) (m : LpProblem) :
  (checking_solver candidate m).1 = LpStatusOptimal →
  feasible m (checking_solver candidate m).2.
Proof.
  unfold checking_solver, feasible.
  destruct (feasibleb m candidate) eqn:Hfeas; simpl; [done|discriminate].
Defined.

Lemma empty_graph_returns_none_witness :
  solve_packing_coloring pretty bfs_distances (checking_solver P3_values)
                         empty_graph
  = Ok (None, None).
Proof.
  destruct (empty_graph_returns_none pretty bfs_distances
              (checking_solver P3_values) empty_graph eq_refl
              (checking_solver_sound P3_values))
    as (z & m & _ & _ & _ & _ & _ & _ & Hret).
  exact Hret.
Defined.

(** * Further properties of the program *)

(** ** Exceptions *)

Lemma for_raises {A S} (l : list A) (body : A → S → result S) (e0 : exn)
    (a : A) (s : S) :
  (∀ b s e, b ∈ l → body b s = Raise e → e = e0) →
  a ∈ l → (∀ s, body a s = Raise e0) →
  for_ l body s = Raise e0.
Proof.
  intros Honly Ha Hraise. revert s.
  induction l as [|b l IH]; intros s; [by apply elem_of_nil in Ha|].
  simpl. destruct (body b s) as [s'|e] eqn:Hb; simpl.
  - apply elem_of_cons in Ha as [->|Ha].
    + rewrite Hraise in Hb. done.
    + apply IH; [|done]. intros b' s0 e Hb'. apply Honly. by right.
  - f_equal. apply (Honly b s); [by left|done].
Qed.

Lemma combinations2_length_ge {A} (l : list A) v u :
  (v, u) ∈ combinations2 l → (2 ≤ length l)%nat.
Proof.
  destruct l as [|a [|b l]]; simpl.
  - by intros ?%elem_of_nil.
  - by intros ?%elem_of_nil.
  - lia.
Qed.

Section exceptions.
Context `{Countable V}.
Variable str : V → string.
Variable all_pairs_shortest_path_length : Graph V → gmap V (gmap V nat).
Variable solve : LpProblem → LpStatus * solution.

(** With the rows of the enumerated pairs present, the builder returns
    [closed_model] or raises [PulpError]. *)
Lemma build_model_rows_present_inv (G : Graph V) :
  rows_present G (all_pairs_shortest_path_length G) →
  build_model str all_pairs_shortest_path_length G
  = Ok (make_x str G (number_of_nodes G), make_z (number_of_nodes G),
        closed_model str G (all_pairs_shortest_path_length G))
  ∨ build_model str all_pairs_shortest_path_length G = Raise PulpError.
Proof.
  intros Hrows. rewrite build_model_rows by done.
  destruct (add_rows_inv
              (constraints
                 (closed_model str G (all_pairs_shortest_path_length G)))
              (set_objective (var_expr (make_z (number_of_nodes G)))
                             (new_problem "PackingColoring" LpMinimize)))
    as [(-> & _)|(-> & _)]; [by left|by right].
Qed.

(** With distinct names the builder gets to the first enumerated pair
    without its row, and raises [KeyError] there. *)
Lemma build_model_key_error (G : Graph V) (v u : V) :
  (v, u) ∈ combinations2 (nodes G) →
  all_pairs_shortest_path_length G !! v = None →
  NoDup (constraint_names str G (all_pairs_shortest_path_length G)) →
  build_model str all_pairs_shortest_path_length G = Raise KeyError.
Proof.
  intros Hvu Hnone Hnd. rewrite <- closed_model_names in Hnd.
  unfold closed_model in Hnd. cbn [constraints] in Hnd.
  unfold build_model.
  set (D := all_pairs_shortest_path_length G) in *.
  set (k := number_of_nodes G) in *.
  assert (∃ k', range1 k = 1%nat :: seq 2 k') as [k' Hk].
  { apply combinations2_length_ge in Hvu. unfold k, number_of_nodes, range1.
    destruct (nodes G) as [|a l]; simpl in *; [lia|by eexists]. }
  unfold packing_rows in Hnd. rewrite Hk, bind_cons, !fmap_app in Hnd.
  apply NoDup_app in Hnd as (Hone & Hdisj & Hnd).
  apply NoDup_app in Hnd as (Hnd & _ & _).
  apply NoDup_app in Hnd as (Hpack & _ & _).
  rewrite add_one_color_closed, add_rows_Ok;
    [|done|intros n _; simpl; by intros ?%elem_of_nil].
  simpl. unfold add_packing. rewrite Hk. simpl.
  rewrite (for_key_error (combinations2 (nodes G)) _
             (packing_row str D 1) (λ vu, D !! vu.1 = None)); [done|..].
  - intros [a b] m _ Hbad. simpl in Hbad. unfold getitem. by rewrite Hbad.
  - intros [a b] m Hab Hgood. simpl in Hgood.
    destruct (D !! a) as [dv|] eqn:Hdv; [|done].
    apply (packing_round str G k 1 D a b dv); [done| |done].
    rewrite Hk. by left.
  - by exists (v, u).
  - done.
  - intros n Hn Hin. simpl in Hin. apply (Hdisj n Hin).
    apply elem_of_app. left. apply elem_of_app. by left.
Qed.

(** The scan of a vertex raises only [TypeError], and does so exactly when
    it meets a variable without a value before any value above 0.5. *)
Lemma first_color_seq_Raise (G : Graph V) (k : nat) (sol : solution) (v : V)
    (n a : nat) (e : exn) :
  v ∈ nodes G → (1 ≤ a)%nat → (a + n ≤ k + 1)%nat →
  first_color sol (make_x str G k) v (seq a n) = Raise e ↔
  e = TypeError ∧
  ∃ j, (a ≤ j < a + n)%nat ∧ sol (x_name str v j) = None ∧
       ∀ t, (a ≤ t < j)%nat →
            ∃ q, sol (x_name str v t) = Some q ∧ (q <= 0.5)%Q.
Proof.
  intros Hv. revert a. induction n as [|n IH]; intros a Ha Hn; simpl.
  - split; [done|]. intros (_ & j & Hj & _). lia.
  - rewrite (getitem_make_x str) by (rewrite ?elem_of_range1; done || lia).
    simpl. unfold varValue. simpl.
    destruct (sol (x_name str v a)) as [q|] eqn:Hq.
    + destruct (Qlt_bool 0.5 q) eqn:Hlt.
      * apply Qlt_bool_true in Hlt. split; [done|].
        intros (_ & j & Hj & Hnone & Hbefore).
        destruct (decide (j = a)) as [->|Hne]; [congruence|].
        destruct (Hbefore a) as (q' & Hq' & Hle); [lia|].
        rewrite Hq in Hq'. injection Hq' as <-. lra.
      * apply Qlt_bool_false in Hlt. rewrite IH by lia. split.
        -- intros (-> & j & Hj & Hnone & Hbefore). split; [done|].
           exists j. split; [lia|]. split; [done|]. intros t Ht.
           destruct (decide (t = a)) as [->|Hne]; [by exists q|].
           apply Hbefore. lia.
        -- intros (-> & j & Hj & Hnone & Hbefore). split; [done|].
           assert (j ≠ a) by congruence.
           exists j. split; [lia|]. split; [done|]. intros t Ht.
           apply Hbefore. lia.
    + split.
      * intros [= <-]. split; [done|]. exists a. split; [lia|].
        split; [done|]. intros t Ht. lia.
      * by intros (-> & _).
Qed.

Lemma first_color_Raise (G : Graph V) (k : nat) (sol : solution) (v : V)
    (e : exn) :
  v ∈ nodes G →
  first_color sol (make_x str G k) v (range1 k) = Raise e ↔
  e = TypeError ∧
  ∃ j, (1 ≤ j ≤ k)%nat ∧ sol (x_name str v j) = None ∧
       ∀ t, (1 ≤ t < j)%nat →
            ∃ q, sol (x_name str v t) = Some q ∧ (q <= 0.5)%Q.
Proof.
  intros Hv. unfold range1.
  rewrite (first_color_seq_Raise G k sol v k 1 e) by (done || lia).
  split; intros (-> & j & Hj & Hrest); (split; [done|]); exists j;
    (split; [lia|done]).
Qed.

(** The outer loop of the decoder raises exactly when the scan of one of
    the vertices does. *)
Lemma for_colors_Raise (fc : V → result (option nat)) (l : list V)
    (acc : gmap V nat) (e : exn) :
  for_ l (λ v (color_assignment : gmap V nat),
            c ← fc v;
            match c with
            | Some i => Ok (<[v := i]> color_assignment)
            | None => Ok color_assignment
            end) acc = Raise e →
  ∃ v, v ∈ l ∧ fc v = Raise e.
Proof.
  revert acc. induction l as [|a l IH]; intros acc; simpl; [done|].
  destruct (fc a) as [[i|]|e'] eqn:Hfa; simpl.
  - intros (v & Hv & Hr)%IH. exists v. split; [by right|done].
  - intros (v & Hv & Hr)%IH. exists v. split; [by right|done].
  - intros [= <-]. exists a. split; [by left|done].
Qed.

Lemma for_colors_Raise_2 (fc : V → result (option nat)) (l : list V)
    (acc : gmap V nat) (e0 : exn) (v : V) :
  (∀ u e, u ∈ l → fc u = Raise e → e = e0) →
  v ∈ l → fc v = Raise e0 →
  for_ l (λ v (color_assignment : gmap V nat),
            c ← fc v;
            match c with
            | Some i => Ok (<[v := i]> color_assignment)
            | None => Ok color_assignment
            end) acc = Raise e0.
Proof.
  intros Honly Hv Hr.
  apply (for_raises _ _ e0 v); [|done|].
  - intros u s e Hu. destruct (fc u) as [[i|]|e'] eqn:Hfu; simpl; [done..|].
    intros [= <-]. by apply (Honly u).
  - intros s. by rewrite Hr.
Qed.

(** X6: [solve_packing_coloring] raises [KeyError] only when the distance
    table lacks the row [distances[v]] of an enumerated pair [(v, u)]: no
    lookup in the dict [x] ever fails; and when such a row is missing and
    the constraint names are distinct, it does raise [KeyError]. *)
Theorem key_error_iff_row_missing (G : Graph V) :
  (solve_packing_coloring str all_pairs_shortest_path_length solve G
   = Raise KeyError →
   ∃ v u, (v, u) ∈ combinations2 (nodes G) ∧
          all_pairs_shortest_path_length G !! v = None) ∧
  (NoDup (constraint_names str G (all_pairs_shortest_path_length G)) →
   (∃ v u, (v, u) ∈ combinations2 (nodes G) ∧
           all_pairs_shortest_path_length G !! v = None) →
   solve_packing_coloring str all_pairs_shortest_path_length solve G
   = Raise KeyError).
Proof.
  split.
  - intros Hraise.
    destruct (rows_present_or_missing G (all_pairs_shortest_path_length G))
      as [Hrows|Hmissing]; [exfalso|done].
    destruct (build_model_rows_present_inv G Hrows) as [Hb|Hb].
    + rewrite (solve_packing_coloring_unfold str _ solve G _ _ _ Hb)
        in Hraise.
      case_decide; [|done].
      destruct (extract_colors G (number_of_nodes G) _ _)
        as [colors|e] eqn:Hex; [done|].
      simpl in Hraise. injection Hraise as ->.
      apply for_colors_Raise in Hex as (v & Hv & Hr).
      apply first_color_Raise in Hr as [[=] _]; done.
    + unfold solve_packing_coloring in Hraise. by rewrite Hb in Hraise.
  - intros Hnd (v & u & Hvu & Hnone). unfold solve_packing_coloring.
    by rewrite (build_model_key_error G v u).
Qed.

(** X14: when the table has the rows of the enumerated pairs,
    [solve_packing_coloring] raises [PulpError] exactly when two of the
    constraints of lines 35, 44 and 49 get the same name. *)
Theorem pulp_error_iff_names_clash (G : Graph V) :
  rows_present G (all_pairs_shortest_path_length G) →
  solve_packing_coloring str all_pairs_shortest_path_length solve G
  = Raise PulpError
  ↔ ¬ NoDup (constraint_names str G (all_pairs_shortest_path_length G)).
Proof.
  intros Hrows. split.
  - intros Hraise Hnd.
    pose proof (build_model_distinct str _ G Hrows Hnd) as Hb.
    rewrite (solve_packing_coloring_unfold str _ solve G _ _ _ Hb) in Hraise.
    case_decide; [|done].
    destruct (extract_colors G (number_of_nodes G) _ _)
      as [colors|e] eqn:Hex; [done|].
    simpl in Hraise. injection Hraise as ->.
    apply for_colors_Raise in Hex as (v & Hv & Hr).
    apply first_color_Raise in Hr as [[=] _]; done.
  - intros Hclash. unfold solve_packing_coloring.
    by rewrite (build_model_clash str _ G Hrows Hclash).
Qed.

(** X7: once the model is built, [solve_packing_coloring] raises
    [TypeError] exactly when the status is optimal and, for some vertex,
    a variable without a value comes before any variable above 0.5 in the
    order of the colors. *)
Theorem type_error_iff_value_missing (G : Graph V) x z m :
  build_model str all_pairs_shortest_path_length G = Ok (x, z, m) →
  solve_packing_coloring str all_pairs_shortest_path_length solve G
  = Raise TypeError
  ↔ (solve m).1 = LpStatusOptimal ∧
    ∃ v j, v ∈ nodes G ∧ (1 ≤ j ≤ number_of_nodes G)%nat ∧
      (solve m).2 (x_name str v j) = None ∧
      ∀ t, (1 ≤ t < j)%nat →
           ∃ q, (solve m).2 (x_name str v t) = Some q ∧ (q <= 0.5)%Q.
Proof.
  intros Hb.
  rewrite (solve_packing_coloring_unfold str _ solve G x z m Hb).
  destruct (build_model_Ok_inv str _ G x z m Hb) as (-> & -> & ->).
  set (m := closed_model str G (all_pairs_shortest_path_length G)).
  set (k := number_of_nodes G).
  case_decide as Hopt; [|by split; [|intros [? _]]].
  split.
  - intros Hraise. split; [done|].
    destruct (extract_colors G k (solve m).2 (make_x str G k))
      as [colors|e] eqn:Hex; [done|].
    simpl in Hraise. injection Hraise as ->.
    apply for_colors_Raise in Hex as (v & Hv & Hr).
    apply first_color_Raise in Hr as (_ & j & Hj & Hnone & Hbefore); [|done].
    by exists v, j.
  - intros (_ & v & j & Hv & Hj & Hnone & Hbefore).
    unfold extract_colors.
    rewrite (for_colors_Raise_2
               (λ v, first_color (solve m).2 (make_x str G k) v (range1 k))
               (nodes G) ∅ TypeError v); [done| |done|].
    + intros u e Hu Hr. by apply first_color_Raise in Hr as [-> _].
    + apply first_color_Raise; [done|]. split; [done|]. by exists j.
Qed.

End exceptions.

(** ** What the builder reads, and how much it builds *)




Lemma combinations2_NoDup {A} (l : list A) :
  NoDup l →
  NoDup (combinations2 l) ∧
  ∀ v u, (v, u) ∈ combinations2 l → v ≠ u ∧ (u, v) ∉ combinations2 l.
Proof.
  induction l as [|a l IH]; intros Hnd.
  - split; [constructor|]. by intros v u ?%elem_of_nil.
  - apply NoDup_cons in Hnd as [Ha Hnd]. destruct (IH Hnd) as [IH1 IH2].
    simpl. split.
    + apply NoDup_app. split; [|split; [|done]].
      * by apply (NoDup_fmap_2 _).
      * intros [v u] (y & [= -> ->] & Hy)%list_elem_of_fmap Hin.
        by apply combinations2_elem_of in Hin as [? _].
    + intros v u [Hin|Hin]%elem_of_app.
      * apply list_elem_of_fmap in Hin as (y & [= -> ->] & Hy).
        split; [by intros ->|].
        intros [Hbad|Hbad]%elem_of_app.
        -- apply list_elem_of_fmap in Hbad as (y' & [= -> ->] & Hy'). done.
        -- by apply combinations2_elem_of in Hbad as [_ ?].
      * destruct (IH2 v u Hin) as [Hne Hrev]. split; [done|].
        intros [Hbad|Hbad]%elem_of_app; [|done].
        apply list_elem_of_fmap in Hbad as (y' & [= -> ->] & Hy').
        by apply combinations2_elem_of in Hin as [_ ?].
Qed.

(** X10: [G.nodes] holds no vertex twice, and over such a list the packing
    loop meets every two distinct vertices in exactly one order: the pairs
    of [itertools.combinations(G.nodes, 2)] are distinct, none pairs a vertex
    with itself, none comes in both orders, and any two distinct vertices
    form one. *)
Theorem pairs_enumerated_once {A} (l : list A) :
  NoDup l →
  NoDup (combinations2 l) ∧
  (∀ v u, (v, u) ∈ combinations2 l → v ≠ u ∧ (u, v) ∉ combinations2 l) ∧
  ∀ v u, v ∈ l → u ∈ l → v ≠ u →
         (v, u) ∈ combinations2 l ∨ (u, v) ∈ combinations2 l.
Proof.
  intros Hnd. destruct (combinations2_NoDup l Hnd) as [Hnd' Hone].
  do 2 (split; [done|]). intros v u. apply elem_of_combinations2.
Qed.


Section sizes.
Context `{Countable V}.
Variable str : V → string.

(** X8: the builder reads the distance table only at the enumerated
    pairs: two oracles whose tables have the rows of these pairs and agree
    on their entries lead to the same outcome, the same dict [x], [z] and
    model or the same exception, whatever the tables hold on the diagonal,
    for the reversed pairs or elsewhere; and the outcome is a model when
    the constraint names are distinct. *)
Theorem model_reads_enumerated_pairs_only (G : Graph V)
    (oracle oracle' : Graph V → gmap V (gmap V nat)) :
  rows_present G (oracle G) →
  rows_present G (oracle' G) →
  (∀ v u, (v, u) ∈ combinations2 (nodes G) →
          distance (oracle G) v u = distance (oracle' G) v u) →
  build_model str oracle G = build_model str oracle' G ∧
  (NoDup (constraint_names str G (oracle G)) →
   ∃ x z m, build_model str oracle G = Ok (x, z, m)).
Proof.
  intros Hrows Hrows' Hagree. split.
  - rewrite !build_model_rows by done.
    enough (closed_model str G (oracle G) = closed_model str G (oracle' G))
      as -> by done.
    unfold closed_model. do 3 f_equal.
    unfold packing_rows. apply bind_ext_elem_of. intros i Hi.
    apply bind_ext_elem_of. intros [v u] Hvu.
    unfold packing_row. simpl. by rewrite (Hagree v u Hvu).
  - intros Hnd. eexists _, _, _. by apply build_model_distinct.
Qed.


End sizes.

(** ** The meaning of the rows of the model *)

Lemma feasible_iff (m : LpProblem) (sol : solution) :
  feasible m sol ↔
  (∀ x, x ∈ variables m → has_domain_value sol x = true) ∧
  (∀ n c, (n, c) ∈ constraints m → satisfies sol c = true).
Proof.
  unfold feasible, feasibleb.
  rewrite andb_true_iff, !forallb_forall. split.
  - intros [Hvs Hcs]. split.
    + intros x Hx. by apply Hvs, list_elem_of_In.
    + intros n c Hc. by apply (Hcs (n, c)), list_elem_of_In.
  - intros [Hvs Hcs]. split.
    + intros x Hx. by apply Hvs, list_elem_of_In.
    + intros [n c] Hc. by apply (Hcs n c), list_elem_of_In.
Qed.

(** The value of an integer variable with bounds is an integer between
    them. *)
Lemma integer_bounds (x : LpVariable) (q : Q) (lo up : Z) :
  cat x = LpInteger → lowBound x = Some lo → upBound x = Some up →
  in_domain x q = true ↔
  ∃ n : Z, (lo ≤ n ≤ up)%Z ∧ (q == inject_Z n)%Q.
Proof.
  unfold in_domain. intros -> -> ->. simpl.
  rewrite !andb_true_iff, !Qle_bool_iff. split.
  - intros [[Hlo Hup] Hint].
    destruct (is_integral_inject_Z q Hint) as [n Hn]. exists n.
    split; [|done]. rewrite Hn in Hlo, Hup. by rewrite !Zle_Qle.
  - intros (n & [Hlo Hup] & Hn). split; [split|].
    + rewrite Hn. by rewrite <- Zle_Qle.
    + rewrite Hn. by rewrite <- Zle_Qle.
    + unfold is_integral. destruct q as [a b]. unfold Qeq in Hn. simpl in *.
      apply Z.eqb_eq, Z.mod_divide; [lia|]. exists n. lia.
Qed.

Section model_meaning.
Context `{Countable V}.
Variable str : V → string.

Local Abbreviation x_var := (x_var str).

Lemma x_name_not_z (v : V) (i : nat) : x_name str v i ≠ "z".
Proof. unfold x_name. simpl. discriminate. Qed.

Lemma packing_row_meaning (sol : solution) (v u : V) (i : nat) :
  satisfies sol (packing_constraint str v u i) = true ↔
  ∃ qv qu, sol (x_name str v i) = Some qv ∧ sol (x_name str u i) = Some qu ∧
           (qv + qu <= 1)%Q.
Proof.
  unfold satisfies, expr_value, varValue. simpl. unfold varValue. simpl.
  destruct (sol (x_name str v i)) as [qv|]; [|split; [done|by intros (?&?&?&?)]].
  destruct (sol (x_name str u i)) as [qu|]; [|split; [done|by intros (?&?&?&?&?)]].
  rewrite Qle_bool_iff. unfold inject_Z. change (0 + 0)%Z with 0%Z.
  split.
  - intros Hle. exists qv, qu. do 2 (split; [done|]). lra.
  - intros (qv' & qu' & [= <-] & [= <-] & Hle). lra.
Qed.

Lemma max_color_row_meaning (sol : solution) (k : nat) (v : V) (i : nat) :
  satisfies sol (max_color_constraint str k v i) = true ↔
  ∃ qx qz, sol (x_name str v i) = Some qx ∧ sol "z" = Some qz ∧
           (inject_Z (Z.of_nat i) * qx <= qz)%Q.
Proof.
  unfold satisfies, expr_value, varValue. simpl. unfold varValue. simpl.
  destruct (sol (x_name str v i)) as [qx|]; [|split; [done|by intros (?&?&?&?)]].
  destruct (sol "z") as [qz|]; [|split; [done|by intros (?&?&?&?&?)]].
  rewrite Qle_bool_iff, Z.mul_1_r, Z.mul_0_r.
  change (inject_Z 0) with 0%Q. change (inject_Z 1) with 1%Q.
  split.
  - intros Hle. exists qx, qz. do 2 (split; [done|]). lra.
  - intros (qx' & qz' & [= <-] & [= <-] & Hle). lra.
Qed.

Lemma one_color_row_meaning (sol : solution) (k : nat) (v : V) :
  satisfies sol (one_color_constraint str k v) = true ↔
  ∃ r, terms_value sol (map (pair 1%Z) (map (x_var v) (seq 1 k))) = Some r ∧
       (r == 1)%Q.
Proof.
  unfold satisfies, expr_value. simpl. rewrite lpSum_terms. simpl.
  unfold range1.
  destruct (terms_value sol (map (pair 1%Z) (map (x_var v) (seq 1 k))))
    as [r|]; [|split; [done|by intros (?&?&?)]].
  rewrite Qeq_bool_iff. unfold inject_Z. split.
  - intros Heq. exists r. split; [done|lra].
  - intros (r' & [= <-] & Heq). lra.
Qed.

Lemma max_color_row_in (G : Graph V) (D : gmap V (gmap V nat)) (v : V)
    (i : nat) :
  v ∈ nodes G → (1 ≤ i ≤ number_of_nodes G)%nat →
  (MaxColor_name str v i, max_color_constraint str (number_of_nodes G) v i)
  ∈ constraints (closed_model str G D).
Proof.
  intros Hv Hi. simpl. rewrite !elem_of_app. right. right.
  unfold max_color_rows.
  apply list_elem_of_bind. exists v. split; [|done].
  apply list_elem_of_bind. exists i. split; [by left|].
  by apply elem_of_range1.
Qed.

(** The rows of the model are the one-color rows of the vertices, the
    packing rows of the enumerated pairs at a distance [d <= i], and the
    max-color rows of the vertices and colors. *)
Lemma closed_model_constraints (G : Graph V) (D : gmap V (gmap V nat)) n c :
  (n, c) ∈ constraints (closed_model str G D) →
  let k := number_of_nodes G in
  (∃ v, v ∈ nodes G ∧ c = one_color_constraint str k v) ∨
  (∃ i v u d, (1 ≤ i ≤ k)%nat ∧ (v, u) ∈ combinations2 (nodes G) ∧
     distance D v u = Some d ∧ (d ≤ i)%nat ∧
     c = packing_constraint str v u i) ∨
  (∃ v i, v ∈ nodes G ∧ (1 ≤ i ≤ k)%nat ∧
     c = max_color_constraint str k v i).
Proof.
  simpl. rewrite !elem_of_app. intros [Hin|[Hin|Hin]].
  - left. unfold one_color_rows in Hin.
    apply list_elem_of_fmap in Hin as (v & [= -> ->] & Hv). by exists v.
  - right. left.
    apply elem_of_packing_rows in Hin
      as (i & v & u & d & Hi%elem_of_range1 & Hvu & Hd & Hle & [= -> ->]).
    by exists i, v, u, d.
  - right. right. unfold max_color_rows in Hin.
    apply list_elem_of_bind in Hin as (v & Hin & Hv).
    apply list_elem_of_bind in Hin as (i & Hin & Hi%elem_of_range1).
    apply list_elem_of_singleton in Hin as [= -> ->]. by exists v, i.
Qed.

(** The variables of the model are [z] and the [x] variables. *)
Lemma closed_model_variables (G : Graph V) (D : gmap V (gmap V nat)) x :
  x ∈ variables (closed_model str G D) →
  let k := number_of_nodes G in
  x = make_z k ∨ ∃ v i, v ∈ nodes G ∧ (1 ≤ i ≤ k)%nat ∧ x = x_var v i.
Proof.
  unfold variables. rewrite elem_of_app. intros [Hin|Hin].
  - left. simpl in Hin. by apply list_elem_of_singleton in Hin.
  - apply list_elem_of_In, in_flat_map in Hin as ([n c] & Hc & Hin).
    apply list_elem_of_In in Hc, Hin.
    apply closed_model_constraints in Hc
      as [(v & Hv & ->)|[(i & v & u & d & Hi & Hvu & _ & _ & ->)
                        |(v & i & Hv & Hi & ->)]];
      simpl in Hin.
    + rewrite lpSum_terms in Hin. unfold expr_variables in Hin. simpl in Hin.
      rewrite app_nil_r, map_map in Hin. simpl in Hin. rewrite map_id in Hin.
      apply list_elem_of_fmap in Hin as (i & -> & Hi%elem_of_range1).
      right. by exists v, i.
    + destruct (combinations2_elem_of _ _ _ Hvu) as [Hv Hu].
      unfold expr_variables in Hin. simpl in Hin.
      right. set_unfold in Hin. destruct Hin as [->|[->|[]]];
        [by exists v, i|by exists u, i].
    + unfold expr_variables in Hin. simpl in Hin.
      set_unfold in Hin. destruct Hin as [->|[->|[]]];
        [right; by exists v, i|by left].
Qed.

(** A solution is feasible for the model when [z] and the [x] variables have
    values of their domains and the three kinds of rows hold. *)
Lemma closed_model_feasible (G : Graph V) (D : gmap V (gmap V nat))
    (sol : solution) :
  let k := number_of_nodes G in
  has_domain_value sol (make_z k) = true →
  (∀ v i, v ∈ nodes G → (1 ≤ i ≤ k)%nat →
          has_domain_value sol (x_var v i) = true) →
  (∀ v, v ∈ nodes G → satisfies sol (one_color_constraint str k v) = true) →
  (∀ i v u d, (1 ≤ i ≤ k)%nat → (v, u) ∈ combinations2 (nodes G) →
              distance D v u = Some d → (d ≤ i)%nat →
              satisfies sol (packing_constraint str v u i) = true) →
  (∀ v i, v ∈ nodes G → (1 ≤ i ≤ k)%nat →
          satisfies sol (max_color_constraint str k v i) = true) →
  feasible (closed_model str G D) sol.
Proof.
  intros k Hz Hx Hone Hpack Hmax. apply feasible_iff. split.
  - intros x [->|(v & i & Hv & Hi & ->)]%closed_model_variables; [done|].
    by apply Hx.
  - intros n c [(v & Hv & ->)|[(i & v & u & d & Hi & Hvu & Hd & Hle & ->)
                               |(v & i & Hv & Hi & ->)]]%closed_model_constraints.
    + by apply Hone.
    + by apply (Hpack i v u d).
    + by apply Hmax.
Qed.

End model_meaning.

(** ** Colorings and solutions *)

(** A sum of variables of which the one of index [c] is 1 and the others
    are 0. *)
Lemma terms_value_indicator (sol : solution) (f : nat → LpVariable)
    (c n a : nat) :
  (∀ t, (a ≤ t < a + n)%nat →
        varValue sol (f t) = Some (if decide (c = t) then 1%Q else 0%Q)) →
  ∃ r, terms_value sol (map (pair 1%Z) (map f (seq a n))) = Some r ∧
       (r == if decide (a ≤ c < a + n)%nat then 1 else 0)%Q.
Proof.
  revert a. induction n as [|n IH]; intros a Hval; simpl.
  - exists 0%Q. split; [done|]. rewrite decide_False by lia. reflexivity.
  - rewrite (Hval a) by lia.
    destruct (IH (S a)) as (r & -> & Hr); [intros; apply Hval; lia|].
    eexists. split; [done|]. rewrite Hr. unfold inject_Z.
    destruct (decide (c = a)) as [->|Hne].
    + rewrite decide_False by lia. rewrite decide_True by lia. lra.
    + destruct (decide (S a ≤ c < S a + n)%nat).
      * rewrite decide_True by lia. lra.
      * rewrite decide_False by lia. lra.
Qed.

Section colorings_as_solutions.
Context `{Countable V}.
Variable str : V → string.
Variable all_pairs_shortest_path_length : Graph V → gmap V (gmap V nat).
Variable solve : LpProblem → LpStatus * solution.

Local Abbreviation x_var := (x_var str).

Lemma encode_z (G : Graph V) (k : nat) (c : V → nat) (zc : nat) :
  encode str G k c zc "z" = Some (inject_Z (Z.of_nat zc)).
Proof. unfold encode, values. simpl. apply lookup_insert_eq. Qed.

Lemma encode_x (G : Graph V) (k : nat) (c : V → nat) (zc : nat) (v : V)
    (i : nat) :
  NoDup (x_names str G k) → v ∈ nodes G → (1 ≤ i ≤ k)%nat →
  encode str G k c zc (x_name str v i)
  = Some (if decide (c v = i) then 1%Q else 0%Q).
Proof.
  intros Hnd Hv Hi. unfold encode, values. simpl.
  rewrite lookup_insert_ne by (by intros ?%eq_sym%x_name_not_z).
  apply elem_of_list_to_map_1.
  - assert ((nodes G ≫= λ v, range1 k ≫= λ i,
               [(x_name str v i, if decide (c v = i) then 1%Q else 0%Q)]).*1
            = x_names str G k) as ->; [|done].
    unfold x_names. rewrite fmap_of_bind.
    apply bind_ext_elem_of. intros a _. rewrite fmap_of_bind.
    by apply bind_ext_elem_of.
  - apply list_elem_of_bind. exists v. split; [|done].
    apply list_elem_of_bind. exists i. split; [by left|].
    by apply elem_of_range1.
Qed.

(** With an optimal status and a feasible solution, the function returns
    the decoded mapping and the value of [z]. *)
Lemma feasible_result (G : Graph V) x z m sol :
  build_model str all_pairs_shortest_path_length G = Ok (x, z, m) →
  solve m = (LpStatusOptimal, sol) →
  feasible m sol →
  ∃ colors,
    solve_packing_coloring str all_pairs_shortest_path_length solve G
    = Ok (Some colors, sol "z") ∧
    ∀ v i, colors !! v = Some i
           ↔ v ∈ nodes G ∧ first_above str sol (number_of_nodes G) v i.
Proof.
  intros Hb Hs Hfeas.
  rewrite (solve_packing_coloring_optimal str _ solve G x z m sol Hb Hs).
  destruct (build_model_Ok_inv str _ G x z m Hb) as (-> & -> & ->).
  destruct (extract_colors_total str G (number_of_nodes G) sol)
    as [colors Hex].
  - intros v j Hv Hj.
    destruct (feasible_x_value str G _ sol v j Hfeas Hv Hj) as (q & -> & _).
    by eexists.
  - exists colors. rewrite Hex. split; [done|].
    by apply extract_colors_lookup.
Qed.

(** In a feasible solution [z] is an integer of [1..k]. *)
Lemma feasible_z_bounds (G : Graph V) (D : gmap V (gmap V nat))
    (sol : solution) :
  feasible (closed_model str G D) sol →
  ∃ zq (n : nat), sol "z" = Some zq ∧ (zq == inject_Z (Z.of_nat n))%Q ∧
                  (1 ≤ n ≤ number_of_nodes G)%nat.
Proof.
  intros Hfeas. set (k := number_of_nodes G).
  destruct (feasible_variable _ sol (make_z k) Hfeas) as (zq & Hzq & Hdom);
    [eapply objective_variable; [done|]; by left|].
  apply (integer_bounds (make_z k) zq 1 (Z.of_nat k) eq_refl eq_refl eq_refl)
    in Hdom as (n & Hn & Hzn).
  exists zq, (Z.to_nat n). split; [done|].
  rewrite Z2Nat.id by lia. split; [done|lia].
Qed.

(** In a feasible solution a color whose variable is above 0.5 is at most
    [z]. *)
Lemma above_le_z (G : Graph V) (D : gmap V (gmap V nat)) (sol : solution)
    (v : V) (i : nat) (zq : Q) :
  feasible (closed_model str G D) sol →
  v ∈ nodes G → (1 ≤ i ≤ number_of_nodes G)%nat →
  (∃ q, sol (x_name str v i) = Some q ∧ (0.5 < q)%Q) →
  sol "z" = Some zq →
  (inject_Z (Z.of_nat i) <= zq)%Q.
Proof.
  intros Hfeas Hv Hi (qx & Hqx & Habove) Hzq.
  destruct (feasible_x_value str G _ sol v i Hfeas Hv Hi)
    as (qx' & Hqx' & Hint & _ & Hle).
  rewrite Hqx in Hqx'. injection Hqx' as <-.
  pose proof (integral_large_is_one qx Hint Hle Habove) as Hone.
  pose proof (feasible_constraint _ _ _ _ Hfeas
                (max_color_row_in str G _ v i Hv Hi)) as Hsat.
  apply max_color_row_meaning in Hsat as (qx' & qz & Hqx' & Hqz & Hmax).
  rewrite Hqx in Hqx'. injection Hqx' as <-.
  rewrite Hzq in Hqz. injection Hqz as <-.
  by rewrite Hone, Qmult_1_r in Hmax.
Qed.

(** X1: with an optimal status and a feasible solution, the value returned
    for [z] is an integer of [1..|V|] and no color of the returned mapping
    is above it. *)
Theorem colors_at_most_z (G : Graph V) x z m sol :
  build_model str all_pairs_shortest_path_length G = Ok (x, z, m) →
  solve m = (LpStatusOptimal, sol) →
  feasible m sol →
  ∃ colors z_val (n : nat),
    solve_packing_coloring str all_pairs_shortest_path_length solve G
    = Ok (Some colors, Some z_val) ∧
    (z_val == inject_Z (Z.of_nat n))%Q ∧
    (1 ≤ n ≤ number_of_nodes G)%nat ∧
    ∀ v i, colors !! v = Some i → (i ≤ n)%nat.
Proof.
  intros Hb Hs Hfeas.
  destruct (feasible_result G x z m sol Hb Hs Hfeas) as (colors & Hret & Hlook).
  destruct (build_model_Ok_inv str _ G x z m Hb) as (-> & -> & ->).
  destruct (feasible_z_bounds G _ sol Hfeas) as (zq & n & Hzq & Hzn & Hn).
  exists colors, zq, n. rewrite Hret, Hzq. do 3 (split; [done|]).
  intros v i (Hv & Hi & Habove & _)%Hlook.
  pose proof (above_le_z G _ sol v i zq Hfeas Hv Hi Habove Hzq) as Hle.
  rewrite Hzn, <- Zle_Qle in Hle. lia.
Qed.

(** The values of a packing coloring satisfy the closed form of the
    model. *)
Lemma encode_feasible (G : Graph V) (D : gmap V (gmap V nat)) (c : V → nat)
    (zc : nat) :
  NoDup (x_names str G (number_of_nodes G)) →
  packing_coloring G D c zc →
  feasible (closed_model str G D) (encode str G (number_of_nodes G) c zc).
Proof.
  intros Hnd (Hzc & Hrange & Hpack).
  set (k := number_of_nodes G) in *.
  set (sol := encode str G k c zc).
  assert (∀ v i, v ∈ nodes G → (1 ≤ i ≤ k)%nat →
            sol (x_name str v i)
            = Some (if decide (c v = i) then 1%Q else 0%Q)) as Hx
    by (intros; by apply encode_x).
  assert (sol "z" = Some (inject_Z (Z.of_nat zc))) as Hz by apply encode_z.
  apply closed_model_feasible; fold k.
  - unfold has_domain_value, varValue. simpl. rewrite Hz.
    apply (integer_bounds (make_z k) _ 1 (Z.of_nat k) eq_refl eq_refl eq_refl).
    exists (Z.of_nat zc). split; [lia|reflexivity].
  - intros v i Hv Hi. unfold has_domain_value, varValue. simpl.
    rewrite Hx by done. by case_decide.
  - intros v Hv. apply one_color_row_meaning.
    destruct (terms_value_indicator sol (x_var v) (c v) k 1) as (r & Hr & Hone).
    + intros t Ht. unfold varValue. simpl. apply Hx; [done|lia].
    + exists r. split; [done|]. rewrite Hone.
      specialize (Hrange v Hv). rewrite decide_True by lia. reflexivity.
  - intros i v u d Hi Hvu Hd Hle. apply packing_row_meaning.
    destruct (combinations2_elem_of _ _ _ Hvu) as [Hv Hu].
    eexists _, _. do 2 (split; [by apply Hx|]).
    destruct (decide (c v = i)) as [Hcv|Hcv],
             (decide (c u = i)) as [Hcu|Hcu]; try lra.
    exfalso. specialize (Hpack v u d Hvu Hd). lia.
  - intros v i Hv Hi. apply max_color_row_meaning.
    eexists _, _. split; [by apply Hx|]. split; [done|].
    specialize (Hrange v Hv).
    case_decide as Hcv.
    + rewrite Qmult_1_r, <- Zle_Qle. lia.
    + rewrite Qmult_0_r. change 0%Q with (inject_Z 0).
      rewrite <- Zle_Qle. lia.
Qed.

(** X3: every packing coloring of the graph is a feasible solution of the
    model: with distinct variable names, the values [encode] gives to a
    packing coloring satisfy every domain and every row. *)
Theorem packing_coloring_is_feasible (G : Graph V) x z m (c : V → nat)
    (zc : nat) :
  build_model str all_pairs_shortest_path_length G = Ok (x, z, m) →
  NoDup (x_names str G (number_of_nodes G)) →
  packing_coloring G (all_pairs_shortest_path_length G) c zc →
  feasible m (encode str G (number_of_nodes G) c zc).
Proof.
  intros Hb Hnd Hc.
  destruct (build_model_Ok_inv str _ G x z m Hb) as (-> & -> & ->).
  by apply encode_feasible.
Qed.

(** X4: decoding the values of a coloring gives the coloring back: when the
    backend answers an optimal status with the values [encode] gives to a
    coloring [c] with colors of [1..k], the function returns [z]'s value
    and the mapping that binds every vertex [v] to [c v] and nothing
    else. *)
Theorem decode_encode (G : Graph V) x z m (c : V → nat) (zc : nat) :
  build_model str all_pairs_shortest_path_length G = Ok (x, z, m) →
  NoDup (x_names str G (number_of_nodes G)) →
  (∀ v, v ∈ nodes G → (1 ≤ c v ≤ number_of_nodes G)%nat) →
  solve m = (LpStatusOptimal, encode str G (number_of_nodes G) c zc) →
  ∃ colors,
    solve_packing_coloring str all_pairs_shortest_path_length solve G
    = Ok (Some colors, Some (inject_Z (Z.of_nat zc))) ∧
    ∀ v, colors !! v = if decide (v ∈ nodes G) then Some (c v) else None.
Proof.
  intros Hb Hnd Hrange Hs.
  rewrite (solve_packing_coloring_optimal str _ solve G x z m _ Hb Hs).
  destruct (build_model_Ok_inv str _ G x z m Hb) as (-> & -> & ->).
  set (k := number_of_nodes G) in *.
  set (sol := encode str G k c zc).
  assert (∀ v i, v ∈ nodes G → (1 ≤ i ≤ k)%nat →
            sol (x_name str v i)
            = Some (if decide (c v = i) then 1%Q else 0%Q)) as Hx
    by (intros; by apply encode_x).
  destruct (extract_colors_total str G k sol) as [colors Hex].
  { intros v j Hv Hj. rewrite Hx by done. by eexists. }
  exists colors. rewrite Hex. simpl. unfold varValue. simpl.
  split; [unfold sol; by rewrite encode_z|].
  pose proof (extract_colors_lookup str G k sol colors Hex) as Hlook.
  intros v. case_decide as Hv.
  - apply Hlook. split; [done|]. specialize (Hrange v Hv).
    split; [done|]. split.
    + eexists. split; [by apply Hx|]. rewrite decide_True by done. lra.
    + intros j Hj. eexists. split; [apply Hx; [done|lia]|].
      rewrite decide_False by lia. lra.
  - destruct (colors !! v) as [i|] eqn:Hc; [|done].
    by apply Hlook in Hc as [? _].
Qed.

Lemma position_range (l : list V) (v : V) :
  v ∈ l → (1 ≤ position l v ≤ length l)%nat.
Proof.
  induction l as [|a l IH]; [by intros ?%elem_of_nil|].
  simpl. case_decide as Ha; [lia|].
  intros [->|Hv]%elem_of_cons; [done|]. specialize (IH Hv). lia.
Qed.

Lemma position_inj (l : list V) (v u : V) :
  v ∈ l → u ∈ l → position l v = position l u → v = u.
Proof.
  induction l as [|a l IH]; [by intros ?%elem_of_nil|].
  simpl. intros Hv Hu.
  destruct (decide (a = v)) as [Hav|Hav]; destruct (decide (a = u)) as [Hau|Hau].
  - congruence.
  - apply elem_of_cons in Hu as [->|Hu]; [done|].
    pose proof (position_range l u Hu). lia.
  - apply elem_of_cons in Hv as [->|Hv]; [done|].
    pose proof (position_range l v Hv). lia.
  - apply elem_of_cons in Hv as [->|Hv]; [done|].
    apply elem_of_cons in Hu as [->|Hu]; [done|].
    intros [= Heq]. by apply IH.
Qed.

(** X5: the model of a graph with a vertex always has a feasible solution:
    with distinct variable names, giving every vertex its place in [G.nodes]
    as its color and [z] the number of vertices satisfies every domain and
    every row, whatever the distances are. *)
Theorem own_colors_are_feasible (G : Graph V) x z m :
  build_model str all_pairs_shortest_path_length G = Ok (x, z, m) →
  nodes G ≠ [] →
  NoDup (nodes G) →
  NoDup (x_names str G (number_of_nodes G)) →
  feasible m (encode str G (number_of_nodes G) (position (nodes G))
                     (number_of_nodes G)).
Proof.
  intros Hb Hne Hnd Hnames.
  destruct (build_model_Ok_inv str _ G x z m Hb) as (-> & -> & ->).
  apply encode_feasible; [done|].
  split; [|split].
  - unfold number_of_nodes. destruct (nodes G); [done|simpl; lia].
  - intros v Hv. by apply position_range.
  - intros v u d Hvu _ Heq. exfalso.
    destruct (combinations2_NoDup _ Hnd) as [_ Hone].
    destruct (Hone v u Hvu) as [Hvu_ne _].
    destruct (combinations2_elem_of _ _ _ Hvu) as [Hv Hu].
    by apply Hvu_ne, (position_inj (nodes G)).
Qed.

End colorings_as_solutions.

(** ** The optimal value *)

(** The value of a sum depends on the values of its variables only. *)
Lemma terms_value_ext (sol sol' : solution) (ts : list (Z * LpVariable)) :
  (∀ t, t ∈ ts → sol' (name t.2) = sol (name t.2)) →
  terms_value sol' ts = terms_value sol ts.
Proof.
  induction ts as [|[c x] ts IH]; intros Hext; [done|].
  pose proof (Hext (c, x)) as Hx. simpl in Hx.
  simpl. unfold varValue. rewrite Hx by left.
  rewrite IH; [done|]. intros t Ht. apply Hext. by right.
Qed.

Section optimal_value.
Context `{Countable V}.
Variable str : V → string.
Variable all_pairs_shortest_path_length : Graph V → gmap V (gmap V nat).
Variable solve : LpProblem → LpStatus * solution.

(** The solution [sol] with the value of [z] replaced by [zc]. *)
Lemma lowered_z_feasible (G : Graph V) (D : gmap V (gmap V nat))
    (sol : solution) (zc : nat) :
  feasible (closed_model str G D) sol →
  (1 ≤ zc ≤ number_of_nodes G)%nat →
  (∀ v i, v ∈ nodes G → (1 ≤ i ≤ number_of_nodes G)%nat →
          (∃ q, sol (x_name str v i) = Some q ∧ (0.5 < q)%Q) → (i ≤ zc)%nat) →
  feasible (closed_model str G D)
           (λ n, if decide (n = "z") then Some (inject_Z (Z.of_nat zc))
                 else sol n).
Proof.
  intros Hfeas Hzc Hle. set (k := number_of_nodes G) in *.
  set (sol' := λ n : string, if decide (n = "z")
                             then Some (inject_Z (Z.of_nat zc)) else sol n).
  assert (∀ v i, sol' (x_name str v i) = sol (x_name str v i)) as Hx.
  { intros v i. unfold sol'. rewrite decide_False; [done|].
    apply x_name_not_z. }
  apply closed_model_feasible; fold k.
  - unfold has_domain_value, varValue. simpl.
    apply (integer_bounds (make_z k) _ 1 (Z.of_nat k) eq_refl eq_refl eq_refl).
    exists (Z.of_nat zc). split; [lia|reflexivity].
  - intros v i Hv Hi. unfold has_domain_value, varValue. simpl. rewrite Hx.
    destruct (feasible_x_value str G D sol v i Hfeas Hv Hi)
      as (q & -> & Hint & H0 & H1).
    unfold in_domain. simpl. rewrite Hint. simpl.
    rewrite andb_true_iff, !Qle_bool_iff. done.
  - intros v Hv.
    pose proof (feasible_constraint _ _ _ _ Hfeas
                  (one_color_row_in str G D v Hv)) as Hsat.
    apply one_color_row_meaning in Hsat as (r & Hr & Hone).
    apply one_color_row_meaning. exists r. split; [|done].
    rewrite <- Hr. apply terms_value_ext.
    intros [c x] (x' & [= -> ->] & (i & -> & _)%list_elem_of_fmap)%list_elem_of_fmap.
    apply Hx.
  - intros i v u d Hi Hvu Hd Hdi.
    assert ((Pack_name str v u i, packing_constraint str v u i)
            ∈ constraints (closed_model str G D)) as Hin.
    { simpl. rewrite !elem_of_app. right. left.
      apply elem_of_packing_rows. exists i, v, u, d.
      by rewrite elem_of_range1. }
    pose proof (feasible_constraint _ _ _ _ Hfeas Hin) as Hsat.
    apply packing_row_meaning in Hsat. apply packing_row_meaning.
    by rewrite !Hx.
  - intros v i Hv Hi. apply max_color_row_meaning. rewrite Hx.
    destruct (feasible_x_value str G D sol v i Hfeas Hv Hi)
      as (q & Hq & Hint & H0 & H1).
    exists q, (inject_Z (Z.of_nat zc)). do 2 (split; [done|]).
    destruct (Qlt_le_dec 0.5 q) as [Habove|Hbelow].
    + rewrite (integral_large_is_one q Hint H1 Habove), Qmult_1_r.
      rewrite <- Zle_Qle. apply inj_le, (Hle v i Hv Hi). by exists q.
    + rewrite (integral_small_is_zero q Hint H0 Hbelow), Qmult_0_r.
      change 0%Q with (inject_Z 0). rewrite <- Zle_Qle. lia.
Qed.

Lemma closed_model_objective_value (G : Graph V) (D : gmap V (gmap V nat))
    (sol : solution) (zq : Q) :
  sol "z" = Some zq →
  ∃ q, objective_value (closed_model str G D) sol = Some q ∧ (q == zq)%Q.
Proof.
  intros Hzq. unfold objective_value, expr_value, varValue. simpl.
  unfold varValue. simpl. rewrite Hzq. eexists. split; [done|].
  unfold inject_Z. lra.
Qed.

(** X2: when the values the backend reports with an optimal status are an
    optimal solution of the model, the value returned for [z] is the largest
    color of the returned mapping: no color is above it and some vertex has
    it. *)
Theorem optimal_z_is_largest_color (G : Graph V) x z m sol :
  build_model str all_pairs_shortest_path_length G = Ok (x, z, m) →
  solve m = (LpStatusOptimal, sol) →
  optimal m sol →
  ∃ colors z_val,
    solve_packing_coloring str all_pairs_shortest_path_length solve G
    = Ok (Some colors, Some z_val) ∧
    (∀ v i, colors !! v = Some i → (inject_Z (Z.of_nat i) <= z_val)%Q) ∧
    ∃ v i, colors !! v = Some i ∧ (z_val == inject_Z (Z.of_nat i))%Q.
Proof.
  intros Hb Hs [Hfeas Hmin].
  destruct (feasible_result str _ solve G x z m sol Hb Hs Hfeas)
    as (colors & Hret & Hlook).
  destruct (build_model_Ok_inv str _ G x z m Hb) as (-> & -> & ->).
  set (D := all_pairs_shortest_path_length G) in *.
  set (k := number_of_nodes G) in *.
  destruct (feasible_z_bounds str G D sol Hfeas) as (zq & n & Hzq & Hzn & Hn).
  exists colors, zq. rewrite Hret, Hzq. split; [done|].
  assert (∀ v i, colors !! v = Some i → (inject_Z (Z.of_nat i) <= zq)%Q)
    as Hupper.
  { intros v i (Hv & Hi & Habove & _)%Hlook.
    by apply (above_le_z str G D sol v i zq). }
  split; [done|].
  (* the largest color *)
  set (color := λ v, default 0%nat (colors !! v)).
  assert (∀ v, v ∈ nodes G → colors !! v = Some (color v)) as Hcolor.
  { intros v Hv.
    destruct (feasible_first_above str G D sol v Hfeas Hv) as [i Hi].
    assert (colors !! v = Some i) as Hc by by apply Hlook.
    unfold color. by rewrite Hc. }
  assert (color <$> nodes G ≠ []) as Hne.
  { unfold k, number_of_nodes in Hn. destruct (nodes G); [simpl in Hn; lia|done]. }
  set (M := max_list (color <$> nodes G)).
  pose proof (max_list_elem_of _ Hne) as HM. fold M in HM.
  apply list_elem_of_fmap in HM as (vM & HvM & HvM_in).
  assert (colors !! vM = Some M) as HcM by (rewrite HvM; by apply Hcolor).
  exists vM, M. split; [done|].
  apply Qle_antisym; [|by apply (Hupper vM)].
  (* lowering [z] to the largest color keeps the solution feasible *)
  assert (1 ≤ M ≤ k)%nat as HMk.
  { apply Hlook in HcM as (_ & ? & _). done. }
  pose proof (lowered_z_feasible G D sol M Hfeas HMk) as Hlow.
  set (sol' := λ n : string, if decide (n = "z")
                             then Some (inject_Z (Z.of_nat M)) else sol n)
    in Hlow.
  destruct (closed_model_objective_value G D sol zq Hzq) as (q & Hq & Hqz).
  destruct (closed_model_objective_value G D sol' (inject_Z (Z.of_nat M)))
    as (q' & Hq' & Hqz'); [done|].
  rewrite <- Hqz, <- Hqz'. apply (Hmin sol' q q'); [|done..].
  apply Hlow. intros v i Hv Hi Habove.
  assert (colors !! v = Some (color v)) as Hcv by by apply Hcolor.
  assert (i = color v) as ->.
  { apply Hlook in Hcv as (_ & Hci & Habove_c & _).
    by apply (feasible_above_unique str G D sol v). }
  apply max_list_elem_of_le, list_elem_of_fmap. by exists v.
Qed.

(** X11: when the values the backend reports with an optimal status are an
    optimal solution of the model, the value returned for [z] is at most
    the largest color of any packing coloring of the graph: with X2, the
    returned mapping uses as few colors as a packing coloring can. *)
Theorem returned_z_is_minimal (G : Graph V) x z m sol (c : V → nat)
    (zc : nat) :
  build_model str all_pairs_shortest_path_length G = Ok (x, z, m) →
  solve m = (LpStatusOptimal, sol) →
  optimal m sol →
  NoDup (x_names str G (number_of_nodes G)) →
  packing_coloring G (all_pairs_shortest_path_length G) c zc →
  ∃ colors z_val,
    solve_packing_coloring str all_pairs_shortest_path_length solve G
    = Ok (Some colors, Some z_val) ∧
    (z_val <= inject_Z (Z.of_nat zc))%Q.
Proof.
  intros Hb Hs [Hfeas Hmin] Hnames Hc.
  destruct (feasible_result str _ solve G x z m sol Hb Hs Hfeas)
    as (colors & Hret & _).
  destruct (build_model_Ok_inv str _ G x z m Hb) as (-> & -> & ->).
  pose proof (encode_feasible str G _ c zc Hnames Hc) as Hfeas'.
  destruct (feasible_z_bounds str G _ sol Hfeas) as (zq & n & Hzq & _ & _).
  exists colors, zq. rewrite Hret, Hzq. split; [done|].
  destruct (closed_model_objective_value G (all_pairs_shortest_path_length G)
              sol zq Hzq) as (q & Hq & Hqz).
  destruct (closed_model_objective_value G (all_pairs_shortest_path_length G)
              (encode str G (number_of_nodes G) c zc)
              (inject_Z (Z.of_nat zc))) as (q' & Hq' & Hqz');
    [apply encode_z|].
  rewrite <- Hqz, <- Hqz'. by apply (Hmin _ q q' Hfeas').
Qed.

End optimal_value.

(** ** Complete graphs and graphs without edges *)

Lemma NoDup_within_seq (l : list nat) (a n : nat) :
  NoDup l → (∀ i, i ∈ l → (a ≤ i < a + n)%nat) → (length l ≤ n)%nat.
Proof.
  intros Hnd Hin.
  assert (length l ≤ length (seq a n))%nat as Hle.
  { apply NoDup_incl_length; [by apply NoDup_ListNoDup|].
    intros i Hi%list_elem_of_In. apply in_seq. by apply Hin. }
  by rewrite length_seq in Hle.
Qed.

Section extremes.
Context `{Countable V}.
Variable str : V → string.
Variable all_pairs_shortest_path_length : Graph V → gmap V (gmap V nat).
Variable solve : LpProblem → LpStatus * solution.

(** In a feasible solution the two vertices of an enumerated pair at
    distance [d] have the same color [i] above 0.5 only when [i < d]. *)
Lemma same_color_far (G : Graph V) (D : gmap V (gmap V nat)) (sol : solution)
    (v u : V) (i d : nat) :
  feasible (closed_model str G D) sol →
  (v, u) ∈ combinations2 (nodes G) → (1 ≤ i ≤ number_of_nodes G)%nat →
  distance D v u = Some d →
  (∃ q, sol (x_name str v i) = Some q ∧ (0.5 < q)%Q) →
  (∃ q, sol (x_name str u i) = Some q ∧ (0.5 < q)%Q) →
  (i < d)%nat.
Proof.
  intros Hfeas Hvu Hi Hd Hv Hu.
  destruct (decide (d ≤ i)%nat) as [Hle|]; [exfalso|lia].
  apply (packing_row_excludes str _ sol (Pack_name str v u i) v u i Hfeas);
    [|done..].
  unfold closed_model. cbn [constraints]. rewrite !elem_of_app. right. left.
  apply elem_of_packing_rows. exists i, v, u, d. by rewrite elem_of_range1.
Qed.

(** X12: when every enumerated pair is at distance 1, as in a complete
    graph, a feasible solution reported with an optimal status gives the
    vertices pairwise different colors and [z] the number of vertices. *)
Theorem complete_graph_uses_all_colors (G : Graph V) x z m sol :
  build_model str all_pairs_shortest_path_length G = Ok (x, z, m) →
  solve m = (LpStatusOptimal, sol) →
  feasible m sol →
  NoDup (nodes G) →
  (∀ v u, (v, u) ∈ combinations2 (nodes G) →
          distance (all_pairs_shortest_path_length G) v u = Some 1%nat) →
  ∃ colors z_val,
    solve_packing_coloring str all_pairs_shortest_path_length solve G
    = Ok (Some colors, Some z_val) ∧
    (z_val == inject_Z (Z.of_nat (number_of_nodes G)))%Q ∧
    ∀ v u i, v ≠ u → colors !! v = Some i → colors !! u ≠ Some i.
Proof.
  intros Hb Hs Hfeas Hnd Hcomplete.
  destruct (feasible_result str _ solve G x z m sol Hb Hs Hfeas)
    as (colors & Hret & Hlook).
  destruct (build_model_Ok_inv str _ G x z m Hb) as (-> & -> & ->).
  set (D := all_pairs_shortest_path_length G) in *.
  set (k := number_of_nodes G) in *.
  destruct (feasible_z_bounds str G D sol Hfeas) as (zq & n & Hzq & Hzn & Hn).
  exists colors, zq. rewrite Hret, Hzq. split; [done|].
  assert (∀ v u i, v ≠ u → colors !! v = Some i → colors !! u ≠ Some i)
    as Hinj.
  { intros v u i Hne (Hv & Hi & Habove_v & _)%Hlook
                     (Hu & _ & Habove_u & _)%Hlook.
    destruct (elem_of_combinations2 _ _ _ Hv Hu Hne) as [Hvu|Huv].
    - pose proof (same_color_far G D sol v u i 1 Hfeas Hvu Hi
                    (Hcomplete v u Hvu) Habove_v Habove_u). lia.
    - pose proof (same_color_far G D sol u v i 1 Hfeas Huv Hi
                    (Hcomplete u v Huv) Habove_u Habove_v). lia. }
  split; [|done].
  set (color := λ v, default 0%nat (colors !! v)).
  assert (∀ v, v ∈ nodes G → colors !! v = Some (color v)) as Hcolor.
  { intros v Hv.
    destruct (feasible_first_above str G D sol v Hfeas Hv) as [i Hi].
    assert (colors !! v = Some i) as Hc by by apply Hlook.
    unfold color. by rewrite Hc. }
  assert (length (color <$> nodes G) ≤ n)%nat as Hlen.
  { apply (NoDup_within_seq _ 1).
    - apply NoDup_fmap_2_strong; [|done].
      intros v u Hv Hu Heq. destruct (decide (v = u)) as [|Hne]; [done|].
      exfalso. apply (Hinj v u (color v) Hne); [by apply Hcolor|].
      rewrite Heq. by apply Hcolor.
    - intros i (v & -> & Hv)%list_elem_of_fmap.
      pose proof (Hcolor v Hv) as Hc.
      apply Hlook in Hc as (_ & Hi & Habove & _).
      pose proof (above_le_z str G D sol v (color v) zq Hfeas Hv Hi Habove Hzq)
        as Hle.
      rewrite Hzn, <- Zle_Qle in Hle. lia. }
  rewrite length_fmap in Hlen. fold (number_of_nodes G) in Hlen. fold k in Hlen.
  assert (n = k) as -> by lia. done.
Qed.

(** X13: when no enumerated pair has a distance, as in a graph without
    edges, an optimal solution reported with an optimal status gives every
    vertex the color 1 and [z] the value 1. *)
Theorem edgeless_graph_uses_one_color (G : Graph V) x z m sol :
  build_model str all_pairs_shortest_path_length G = Ok (x, z, m) →
  solve m = (LpStatusOptimal, sol) →
  optimal m sol →
  NoDup (x_names str G (number_of_nodes G)) →
  (∀ v u, (v, u) ∈ combinations2 (nodes G) →
          distance (all_pairs_shortest_path_length G) v u = None) →
  ∃ colors z_val,
    solve_packing_coloring str all_pairs_shortest_path_length solve G
    = Ok (Some colors, Some z_val) ∧
    (z_val == 1)%Q ∧
    ∀ v, v ∈ nodes G → colors !! v = Some 1%nat.
Proof.
  intros Hb Hs [Hfeas Hmin] Hnames Hedgeless.
  destruct (feasible_result str _ solve G x z m sol Hb Hs Hfeas)
    as (colors & Hret & Hlook).
  destruct (build_model_Ok_inv str _ G x z m Hb) as (-> & -> & ->).
  set (D := all_pairs_shortest_path_length G) in *.
  set (k := number_of_nodes G) in *.
  assert (feasible (closed_model str G D) (encode str G k (λ _, 1%nat) 1))
    as Hfeas'.
  { apply encode_feasible; [done|].
    destruct (feasible_z_bounds str G _ sol Hfeas) as (_ & n & _ & _ & Hn).
    split; [fold k; lia|]. split; [intros; lia|].
    intros v u d Hvu Hd. by rewrite (Hedgeless v u Hvu) in Hd. }
  destruct (feasible_z_bounds str G D sol Hfeas) as (zq & n & Hzq & Hzn & Hn).
  exists colors, zq. rewrite Hret, Hzq. split; [done|].
  destruct (closed_model_objective_value str G D sol zq Hzq)
    as (q & Hq & Hqz).
  destruct (closed_model_objective_value str G D
              (encode str G k (λ _, 1%nat) 1) (inject_Z (Z.of_nat 1)))
    as (q' & Hq' & Hqz'); [apply encode_z|].
  pose proof (Hmin _ q q' Hfeas' Hq Hq') as Hle.
  rewrite Hqz, Hqz', Hzn, <- Zle_Qle in Hle.
  assert (n = 1%nat) as -> by lia.
  split; [by rewrite Hzn|].
  intros v Hv.
  destruct (feasible_first_above str G D sol v Hfeas Hv)
    as (i & Hi & Habove & Hbefore).
  pose proof (above_le_z str G D sol v i zq Hfeas Hv Hi Habove Hzq) as Hiz.
  rewrite Hzn, <- Zle_Qle in Hiz.
  assert (i = 1%nat) as -> by lia.
  by apply Hlook.
Qed.

End extremes.

(** ** The further properties on the path 1 - 2 - 3 *)

Lemma P3_names_distinct : NoDup (x_names pretty P3 (number_of_nodes P3)).
Proof. apply (bool_decide_unpack _). vm_compute. exact I. Defined.

Lemma P3_nodes_distinct : NoDup (nodes P3).
Proof. apply (bool_decide_unpack _). vm_compute. exact I. Defined.

Lemma P3_rows_present : rows_present P3 (bfs_distances P3).
Proof. apply covers_rows_present, P3_covered. Defined.

Lemma P3_pairs (v u : nat) :
  (v, u) ∈ combinations2 (nodes P3) →
  (v, u) = (1, 2)%nat ∨ (v, u) = (1, 3)%nat ∨ (v, u) = (2, 3)%nat.
Proof.
  intros Hvu. apply list_elem_of_In in Hvu. simpl in Hvu.
  destruct Hvu as [<- | [<- | [<- | Hvu]]]; tauto.
Defined.

Lemma P3_coloring_packing :
  packing_coloring P3 (bfs_distances P3) P3_coloring 2.
Proof.
  split; [|split].
  - vm_compute. lia.
  - intros v Hv. unfold P3_coloring. case_decide; lia.
  - intros v u d [[= -> ->] | [[= -> ->] | [= -> ->]]]%P3_pairs Hd Heq;
      vm_compute in Hd, Heq; injection Hd as <-; vm_compute; lia.
Defined.

(** No solution of the model of the path has [z] below 2. *)
Lemma P3_optimal :
  optimal (closed_model pretty P3 (bfs_distances P3)) P3_values.
Proof.
  split; [exact P3_feasible|]. intros sol' q q' Hfeas' Hq Hq'.
  vm_compute in Hq. injection Hq as <-.
  destruct (feasible_z_bounds pretty P3 _ sol' Hfeas')
    as (zq & n & Hzq & Hzn & Hn).
  destruct (closed_model_objective_value pretty P3 (bfs_distances P3)
              sol' zq Hzq) as (q'' & Hq'' & Hqz).
  rewrite Hq' in Hq''. injection Hq'' as <-.
  assert (2 ≤ n)%nat as Hn2.
  { destruct (decide (2 ≤ n)%nat) as [|Hsmall]; [done|exfalso].
    assert (n = 1%nat) as -> by lia.
    assert (∀ v, v ∈ nodes P3 →
              ∃ q, sol' (x_name pretty v 1) = Some q ∧ (0.5 < q)%Q) as Hone.
    { intros v Hv.
      destruct (feasible_first_above pretty P3 _ sol' v Hfeas' Hv)
        as (i & Hi & Habove & _).
      pose proof (above_le_z pretty P3 _ sol' v i zq Hfeas' Hv Hi Habove Hzq)
        as Hle.
      rewrite Hzn, <- Zle_Qle in Hle.
      assert (i = 1%nat) as -> by lia. done. }
    apply (packing_row_excludes pretty _ sol' (Pack_name pretty 1 2 1)
             1%nat 2%nat 1%nat Hfeas').
    - unfold closed_model. cbn [constraints].
      rewrite !elem_of_app. right. left.
      apply elem_of_packing_rows. exists 1%nat, 1%nat, 2%nat, 1%nat.
      split; [vm_compute; by left|]. split; [vm_compute; by left|].
      split; [vm_compute; reflexivity|]. split; [lia|done].
    - apply Hone. vm_compute. by left.
    - apply Hone. vm_compute. by right; left. }
  rewrite Hqz, Hzn.
  change (2 # 1)%Q with (inject_Z 2) || change 2%Q with (inject_Z 2).
  rewrite <- Zle_Qle. lia.
Defined.

Lemma colors_at_most_z_witness :
  ∃ colors z_val (n : nat),
    solve_packing_coloring pretty bfs_distances (checking_solver P3_values) P3
    = Ok (Some colors, Some z_val) ∧
    (z_val == inject_Z (Z.of_nat n))%Q ∧ (1 ≤ n ≤ 3)%nat.
Proof.
  destruct (colors_at_most_z pretty bfs_distances (checking_solver P3_values)
              P3 _ _ _ P3_values P3_built P3_solved P3_feasible)
    as (colors & z_val & n & Hret & Hz & Hn & _).
  exists colors, z_val, n. exact (conj Hret (conj Hz Hn)).
Defined.

Lemma optimal_z_is_largest_color_witness :
  ∃ colors z_val v i,
    solve_packing_coloring pretty bfs_distances (checking_solver P3_values) P3
    = Ok (Some colors, Some z_val) ∧
    colors !! v = Some i ∧ (z_val == inject_Z (Z.of_nat i))%Q.
Proof.
  destruct (optimal_z_is_largest_color pretty bfs_distances
              (checking_solver P3_values) P3 _ _ _ P3_values
              P3_built P3_solved P3_optimal)
    as (colors & z_val & Hret & _ & v & i & Hc & Hz).
  exists colors, z_val, v, i. exact (conj Hret (conj Hc Hz)).
Defined.

Lemma packing_coloring_is_feasible_witness :
  feasible (closed_model pretty P3 (bfs_distances P3))
           (encode pretty P3 3 P3_coloring 2).
Proof.
  apply (packing_coloring_is_feasible pretty bfs_distances P3 _ _ _
           P3_coloring 2 P3_built P3_names_distinct P3_coloring_packing).
Defined.

Lemma decode_encode_witness :
  ∃ colors,
    solve_packing_coloring pretty bfs_distances
      (checking_solver (encode pretty P3 3 P3_coloring 2)) P3
    = Ok (Some colors, Some (inject_Z 2)) ∧
    colors !! 2%nat = Some 2%nat.
Proof.
  destruct (decode_encode pretty bfs_distances
              (checking_solver (encode pretty P3 3 P3_coloring 2)) P3 _ _ _
              P3_coloring 2 P3_built P3_names_distinct)
    as (colors & Hret & Hlook).
  - intros v Hv. unfold P3_coloring. case_decide; vm_compute; lia.
  - vm_compute. reflexivity.
  - exists colors. split; [exact Hret|]. rewrite Hlook.
    rewrite decide_True; [done|]. vm_compute. by right; left.
Defined.

Lemma own_colors_are_feasible_witness :
  feasible (closed_model pretty P3 (bfs_distances P3))
           (encode pretty P3 3 (position (nodes P3)) 3).
Proof.
  apply (own_colors_are_feasible pretty bfs_distances P3 _ _ _ P3_built).
  - discriminate.
  - exact P3_nodes_distinct.
  - exact P3_names_distinct.
Defined.

Lemma type_error_iff_value_missing_witness :
  solve_packing_coloring pretty bfs_distances unvalued_solver P3
  = Raise TypeError.
Proof.
  apply (type_error_iff_value_missing pretty bfs_distances unvalued_solver
           P3 _ _ _ P3_built).
  split; [reflexivity|]. exists 1%nat, 1%nat.
  split; [vm_compute; by left|]. split; [vm_compute; lia|].
  split; [reflexivity|]. intros t Ht. lia.
Defined.

Lemma P3_upper_rows_present : rows_present P3 (P3_upper_distances P3).
Proof.
  intros v u [[= -> ->] | [[= -> ->] | [= -> ->]]]%P3_pairs;
    vm_compute; by eexists.
Defined.

Lemma model_reads_enumerated_pairs_only_witness :
  build_model pretty bfs_distances P3
  = build_model pretty P3_upper_distances P3 ∧
  ∃ x z m, build_model pretty bfs_distances P3 = Ok (x, z, m).
Proof.
  destruct (model_reads_enumerated_pairs_only pretty P3 bfs_distances
              P3_upper_distances P3_rows_present P3_upper_rows_present)
    as [Heq Hok].
  - intros v u [[= -> ->] | [[= -> ->] | [= -> ->]]]%P3_pairs;
      vm_compute; reflexivity.
  - split; [exact Heq|exact (Hok P3_constraint_names_distinct)].
Defined.


Lemma pairs_enumerated_once_witness :
  NoDup (combinations2 (nodes P3)) ∧
  (3%nat, 1%nat) ∉ combinations2 (nodes P3).
Proof.
  destruct (pairs_enumerated_once (nodes P3) P3_nodes_distinct)
    as (Hnd & Hone & _).
  split; [done|]. apply (Hone 1%nat 3%nat). vm_compute. by right; left.
Defined.

Lemma returned_z_is_minimal_witness :
  ∃ colors z_val,
    solve_packing_coloring pretty bfs_distances (checking_solver P3_values) P3
    = Ok (Some colors, Some z_val) ∧
    (z_val <= inject_Z 2)%Q.
Proof.
  apply (returned_z_is_minimal pretty bfs_distances
           (checking_solver P3_values) P3 _ _ _ P3_values P3_coloring 2
           P3_built P3_solved P3_optimal P3_names_distinct
           P3_coloring_packing).
Defined.

(** ** The further properties on two vertices, joined and apart *)

Lemma K2_built :
  build_model pretty bfs_distances K2
  = Ok (make_x pretty K2 2, make_z 2,
        closed_model pretty K2 (bfs_distances K2)).
Proof. vm_compute. reflexivity. Defined.

Lemma K2_solved :
  checking_solver K2_values (closed_model pretty K2 (bfs_distances K2))
  = (LpStatusOptimal, K2_values).
Proof. vm_compute. reflexivity. Defined.

Lemma K2_feasible :
  feasible (closed_model pretty K2 (bfs_distances K2)) K2_values.
Proof. vm_compute. reflexivity. Defined.

Lemma K2_complete (v u : nat) :
  (v, u) ∈ combinations2 (nodes K2) →
  distance (bfs_distances K2) v u = Some 1%nat.
Proof.
  intros Hvu. apply list_elem_of_In in Hvu. simpl in Hvu.
  destruct Hvu as [[= <- <-] | Hvu]; [|done]. vm_compute. reflexivity.
Defined.

Lemma complete_graph_uses_all_colors_witness :
  ∃ colors z_val,
    solve_packing_coloring pretty bfs_distances (checking_solver K2_values) K2
    = Ok (Some colors, Some z_val) ∧
    (z_val == inject_Z 2)%Q.
Proof.
  destruct (complete_graph_uses_all_colors pretty bfs_distances
              (checking_solver K2_values) K2 _ _ _ K2_values
              K2_built K2_solved K2_feasible)
    as (colors & z_val & Hret & Hz & _).
  - apply (bool_decide_unpack _). vm_compute. exact I.
  - exact K2_complete.
  - exists colors, z_val. exact (conj Hret Hz).
Defined.

Lemma two_isolated_built :
  build_model pretty bfs_distances two_isolated
  = Ok (make_x pretty two_isolated 2, make_z 2,
        closed_model pretty two_isolated (bfs_distances two_isolated)).
Proof. vm_compute. reflexivity. Defined.

Lemma two_isolated_solved :
  checking_solver two_isolated_values
    (closed_model pretty two_isolated (bfs_distances two_isolated))
  = (LpStatusOptimal, two_isolated_values).
Proof. vm_compute. reflexivity. Defined.

Lemma two_isolated_optimal :
  optimal (closed_model pretty two_isolated (bfs_distances two_isolated))
          two_isolated_values.
Proof.
  split; [vm_compute; reflexivity|]. intros sol' q q' Hfeas' Hq Hq'.
  vm_compute in Hq. injection Hq as <-.
  destruct (feasible_z_bounds pretty two_isolated _ sol' Hfeas')
    as (zq & n & Hzq & Hzn & Hn).
  destruct (closed_model_objective_value pretty two_isolated
              (bfs_distances two_isolated) sol' zq Hzq) as (q'' & Hq'' & Hqz).
  rewrite Hq' in Hq''. injection Hq'' as <-.
  rewrite Hqz, Hzn.
  change (1 # 1)%Q with (inject_Z 1) || change 1%Q with (inject_Z 1).
  rewrite <- Zle_Qle. lia.
Defined.

Lemma two_isolated_apart (v u : nat) :
  (v, u) ∈ combinations2 (nodes two_isolated) →
  distance (bfs_distances two_isolated) v u = None.
Proof.
  intros Hvu. apply list_elem_of_In in Hvu. simpl in Hvu.
  destruct Hvu as [[= <- <-] | Hvu]; [|done]. vm_compute. reflexivity.
Defined.

Lemma edgeless_graph_uses_one_color_witness :
  ∃ colors z_val,
    solve_packing_coloring pretty bfs_distances
      (checking_solver two_isolated_values) two_isolated
    = Ok (Some colors, Some z_val) ∧
    (z_val == 1)%Q ∧ colors !! 2%nat = Some 1%nat.
Proof.
  destruct (edgeless_graph_uses_one_color pretty bfs_distances
              (checking_solver two_isolated_values) two_isolated _ _ _
              two_isolated_values two_isolated_built two_isolated_solved
              two_isolated_optimal)
    as (colors & z_val & Hret & Hz & Hone).
  - apply (bool_decide_unpack _). vm_compute. exact I.
  - exact two_isolated_apart.
  - exists colors, z_val. split; [exact Hret|]. split; [exact Hz|].
    apply Hone. vm_compute. by right; left.
Defined.

Lemma key_error_iff_row_missing_witness :
  solve_packing_coloring pretty no_rows (checking_solver P3_values) P3
  = Raise KeyError.
Proof.
  apply (key_error_iff_row_missing pretty no_rows (checking_solver P3_values)
           P3).
  - apply (bool_decide_unpack _). vm_compute. exact I.
  - exists 1%nat, 2%nat. split; [vm_compute; by left|reflexivity].
Defined.

(** ** A graph whose constraint names clash *)

Lemma named_pairs_rows_present :
  rows_present named_pairs (bfs_distances named_pairs).
Proof.
  apply covers_rows_present. apply (bool_decide_unpack _).
  vm_compute. exact I.
Defined.

Lemma pulp_error_iff_names_clash_witness :
  solve_packing_coloring id bfs_distances (checking_solver (values []))
                         named_pairs
  = Raise PulpError.
Proof.
  apply (pulp_error_iff_names_clash id bfs_distances
           (checking_solver (values [])) named_pairs
           named_pairs_rows_present).
  apply (bool_decide_unpack _). vm_compute. exact I.
Defined.
